(** * Data-flow graph construction and taint propagation (thoth/app/dfg/dfg.py)

    A shallow embedding of the [DFG] class: the three build passes
    ([_create_blocks], [_create_functions_calls], [_create_edges]), the name
    resolver [_get_variable_name] and the taint engine ([taint_children_blocks],
    [_taint_variable], [_taint_functions_arguments], [_clean_tainting]).

    Python objects are compared by identity in this code: a Variable Block is
    therefore represented by its position in [variables_blocks] (blocks are
    created only by [_create_blocks], which appends them there), and the lists
    [parents_blocks] / [children_blocks] hold such positions.  Coefficients are
    IEEE-754 binary64 numbers, as Python floats are. *)

From Stdlib Require Import ZArith Lia Floats.PrimFloat Floats.FloatOps Floats.SpecFloat.
From Stdlib Require Import Strings.HexString.
From stdpp Require Import base option list strings pretty relations.

Set Default Proof Using "Type".
Local Set Warnings "-inexact-float".

(** ** The upstream entities (decompiler side) *)

(** Modelled from the spec: class [Function] (thoth/app/disassembler/function.py)
    is not part of the sources at hand.  Section 6 of the specification gives its
    interface: an integer [id], a [name], the [is_import] flag and the query
    [arguments_list(explicit, implicit, ret)].  Function objects are compared with
    [==], which is object identity: equality on the carrier type. *)
Class FunctionObj (Function : Type) := {
  Function_eq_dec :: EqDecision Function;
  f_id : Function → Z;
  f_name : Function → string;
  f_is_import : Function → bool;
  (* f.arguments_list(explicit=.., implicit=.., ret=..) *)
  arguments_list : Function → bool → bool → bool → list string;
  (* f.arguments_list(), every flag left to the method's default *)
  arguments_list0 : Function → list string;
}.

(** Modelled from the spec: [Operand], [OperandType], [Variable] and
    [VariableValueType] (thoth/app/decompiler/variable.py) are not part of the
    sources at hand; the types below follow sections 3 and 6 of the
    specification and the attributes dfg.py reads.

    A scalar carried by an operand is a variable name or an integer literal. *)
Inductive Atom :=
  | AName (s : string)
  | AInt (z : Z).

Global Instance Atom_eq_dec : EqDecision Atom.
Proof. solve_decision. Defined.

Inductive OperandType := VARIABLE | INTEGER.

Global Instance OperandType_eq_dec : EqDecision OperandType.
Proof. solve_decision. Defined.

(** [Operand.value] is either a scalar or a Python list of scalars
    ([isinstance(value, list)]). *)
Inductive OperandValue :=
  | Scalar (a : Atom)
  | ListOf (l : list Atom).

Record Operand := {
  op_type : OperandType;
  op_value : OperandValue;
}.

(** An item of [value.operation]: an [Operand], or anything else (an operator),
    which [isinstance(v, Operand)] filters out. *)
Inductive Element :=
  | EOperand (o : Operand)
  | EOther (s : string).

Section DFG.

Context {Function : Type} `{FunctionObj Function}.

(** The operation of a value of type [FUNCTION_CALL]. *)
Record FunctionCall := {
  fc_function : Function;
  fc_call_number : Z;
}.

(** [Variable.value] when it is not [None]: [value.type] is [FUNCTION_CALL] or
    not, and in the latter case [value.operation] is iterated. *)
Inductive VariableValue :=
  | Expression (operation : list Element)
  | FUNCTION_CALL (operation : FunctionCall).

Record Variable_ := {
  v_name : string;
  v_function : option Function;
  v_is_function_argument : bool;
  v_is_function_return_value : bool;
  v_value : option VariableValue;
}.

(** ** The blocks (thoth/app/dfg/objects.py) *)

(** Modelled from the spec: classes [DFGVariableBlock], [DFGConstantBlock],
    [DFGFunctionCallBlock] and [DFGEdge] (thoth/app/dfg/objects.py) are not part
    of the sources at hand; the fields are those of section 3 of the
    specification and of the constructor calls in dfg.py.  [parents_blocks] and
    [children_blocks] are lists (dfg.py appends to them). *)
Record DFGVariableBlock := {
  b_name : string;
  b_function : Function;
  b_is_function_argument : bool;
  b_is_function_return_value : bool;
  graph_representation_name : option string;
  parents_blocks : list nat;
  children_blocks : list nat;
  tainting_coefficient : float;
}.

Record DFGConstantBlock := {
  c_value : Atom;
  c_id : nat;
  c_variable : Variable_;
  c_function : option Function;
}.

Record DFGFunctionCallBlock := {
  fcb_value : string;
  fcb_arguments : list string;
  fcb_return_values : list string;
  fcb_function : option Function;
  fcb_call_number : Z;
}.

(** The source of an edge is a Variable Block or a Constant Block; both are
    named by their position in the list that holds them. *)
Inductive BlockRef :=
  | VariableRef (i : nat)
  | ConstantRef (i : nat).

Record DFGEdge := {
  e_source : BlockRef;
  e_destination : nat;
  e_function : option Function;
}.

Record DFG := {
  variables : list Variable_;
  variables_blocks : list DFGVariableBlock;
  constants_blocks : list DFGConstantBlock;
  functions_calls_blocks : list DFGFunctionCallBlock;
  edges : list DFGEdge;
  all_functions_arguments : list string;
}.

(** ** Tainting *)

Definition PROPAGATION_COEFFICIENT : float := 0.7%float.

(** [block.tainting_coefficient = k] *)
Definition set_coefficient (k : float) (b : DFGVariableBlock) : DFGVariableBlock :=
  {| b_name := b_name b;
     b_function := b_function b;
     b_is_function_argument := b_is_function_argument b;
     b_is_function_return_value := b_is_function_return_value b;
     graph_representation_name := graph_representation_name b;
     parents_blocks := parents_blocks b;
     children_blocks := children_blocks b;
     tainting_coefficient := k |}.

Definition coefficient (bs : list DFGVariableBlock) (i : nat) : option float :=
  tainting_coefficient <$> bs !! i.

Definition children_of (bs : list DFGVariableBlock) (i : nat) : list nat :=
  from_option children_blocks [] (bs !! i).

(** One assignment of the loop of [taint_children_blocks]: the parent's
    coefficient is read when the child is written. *)
Definition taint_child (parent : nat) (bs : list DFGVariableBlock) (child : nat)
    : list DFGVariableBlock :=
  match bs !! parent with
  | Some p =>
      alter (set_coefficient (PROPAGATION_COEFFICIENT * tainting_coefficient p)) child bs
  | None => bs
  end.

Definition taint_children_blocks (parent_block : nat) (bs : list DFGVariableBlock)
    : list DFGVariableBlock :=
  foldl (taint_child parent_block) bs (children_of bs parent_block).

(** The state of the [while] loop of [_taint_variable]. *)
Record TaintState := {
  blocks : list DFGVariableBlock;
  blocks_to_taint : list nat;
  tainted_blocks : list nat;
}.

(** One iteration of the loop, for a non-empty [blocks_to_taint]. *)
Definition taint_step (st : TaintState) : option TaintState :=
  match blocks_to_taint st with
  | [] => None
  | head :: rest =>
      let tainted := tainted_blocks st ++ [head] in
      Some {| blocks := taint_children_blocks head (blocks st);
              blocks_to_taint :=
                rest ++ filter (λ block, block ∉ tainted) (children_of (blocks st) head);
              tainted_blocks := tainted |}
  end.

(** [while blocks_to_taint: ...]; [None] when the fuel runs out. *)
Fixpoint taint_loop (fuel : nat) (st : TaintState) : option TaintState :=
  match blocks_to_taint st with
  | [] => Some st
  | _ :: _ =>
      match fuel with
      | O => None
      | S fuel' => taint_step st ≫= taint_loop fuel'
      end
  end.

(** The state in which the loop is entered.  The code stores the integer [1]
    in the source block; as a factor of [PROPAGATION_COEFFICIENT] it is the
    float [1.0]. *)
Definition taint_start (source_block : nat) (bs : list DFGVariableBlock) : TaintState :=
  {| blocks := alter (set_coefficient 1) source_block bs;
     blocks_to_taint := [source_block];
     tainted_blocks := [] |}.

(** [_taint_variable], with the state at the exit of the loop. *)
Definition _taint_variable_run (fuel : nat) (source_block : nat)
    (bs : list DFGVariableBlock) : option TaintState :=
  taint_loop fuel (taint_start source_block bs).

Definition _taint_variable (fuel : nat) (source_block : nat)
    (bs : list DFGVariableBlock) : option (list DFGVariableBlock) :=
  blocks <$> _taint_variable_run fuel source_block bs.

(** The loop of [_taint_functions_arguments] over the positions of
    [variables_blocks]. *)
Fixpoint taint_arguments_from (fuel : nat) (todo : list nat)
    (bs : list DFGVariableBlock) : option (list DFGVariableBlock) :=
  match todo with
  | [] => Some bs
  | variable :: todo' =>
      match bs !! variable with
      | Some b =>
          if b_is_function_argument b
          then _taint_variable fuel variable bs ≫= taint_arguments_from fuel todo'
          else taint_arguments_from fuel todo' bs
      | None => taint_arguments_from fuel todo' bs
      end
  end.

Definition with_variables_blocks (d : DFG) (bs : list DFGVariableBlock) : DFG :=
  {| variables := variables d;
     variables_blocks := bs;
     constants_blocks := constants_blocks d;
     functions_calls_blocks := functions_calls_blocks d;
     edges := edges d;
     all_functions_arguments := all_functions_arguments d |}.

Definition _taint_functions_arguments (fuel : nat) (d : DFG) : option DFG :=
  with_variables_blocks d <$>
    taint_arguments_from fuel (seq 0 (length (variables_blocks d))) (variables_blocks d).

(** [block.tainting_coefficient = 0] for every block of [variables_blocks]. *)
Definition _clean_tainting (d : DFG) : DFG :=
  with_variables_blocks d (set_coefficient 0 <$> variables_blocks d).

(** A sequence of calls of the taint operations on one graph. *)
Inductive taint_operation :=
  | TaintFunctionsArguments
  | TaintVariable (source_block : nat)
  | CleanTainting.

Definition run_operation (fuel : nat) (d : DFG) (op : taint_operation) : option DFG :=
  match op with
  | TaintFunctionsArguments => _taint_functions_arguments fuel d
  | TaintVariable source_block =>
      with_variables_blocks d <$> _taint_variable fuel source_block (variables_blocks d)
  | CleanTainting => Some (_clean_tainting d)
  end.

Fixpoint run_operations (fuel : nat) (d : DFG) (ops : list taint_operation) : option DFG :=
  match ops with
  | [] => Some d
  | op :: ops' => run_operation fuel d op ≫= λ d', run_operations fuel d' ops'
  end.

(** The states the loop of [_taint_variable] goes through. *)
Definition taint_steps : relation TaintState :=
  rtc (λ st st', taint_step st = Some st').

(** ** Construction *)

(** Exceptions the build passes can raise. *)
Inductive exception := IndexError.

Inductive result (A : Type) :=
  | Ok (a : A)
  | Raise (e : exception).
Global Arguments Ok {A} a.
Global Arguments Raise {A} e.

Global Instance result_ret : MRet result := λ A a, Ok a.
Global Instance result_bind : MBind result := λ A B f r,
  match r with
  | Ok a => f a
  | Raise e => Raise e
  end.

(** A [for] loop whose body can raise. *)
Fixpoint for_each {A S : Type} (body : S → A → result S) (s : S) (l : list A) : result S :=
  match l with
  | [] => Ok s
  | x :: l' => s' ← body s x; for_each body s' l'
  end.

(** [DFG.__init__]: empty block and edge lists; the argument names of the
    function of every variable ([filter(None, ...)] drops the variables without
    function), concatenated. *)
Definition __init__ (vs : list Variable_) : DFG :=
  let all_functions := omap v_function vs in
  {| variables := vs;
     variables_blocks := [];
     constants_blocks := [];
     functions_calls_blocks := [];
     edges := [];
     all_functions_arguments := concat (arguments_list0 <$> all_functions) |}.

(** The argument names as the specification describes them: those of the
    non-import functions only.  [__init__] computes [all_functions_arguments]
    instead. *)
Definition non_import_arguments (vs : list Variable_) : list string :=
  concat (arguments_list0 <$> filter (λ f, f_is_import f = false) (omap v_function vs)).

(** ["f%s_%s" % (variable.function.id, variable.name)] *)
Definition prefixed_name (b : DFGVariableBlock) : string :=
  "f" +:+ pretty (f_id (b_function b)) +:+ "_" +:+ b_name b.

Definition _get_variable_name (d : DFG) (variable : DFGVariableBlock) : string :=
  if decide (b_name variable ∈ all_functions_arguments d)
  then prefixed_name variable
  else b_name variable.

(** [DFGVariableBlock(name, function, is_function_argument, is_function_return_value)] *)
Definition new_variable_block (name : string) (function : Function)
    (is_function_argument is_function_return_value : bool) : DFGVariableBlock :=
  {| b_name := name;
     b_function := function;
     b_is_function_argument := is_function_argument;
     b_is_function_return_value := is_function_return_value;
     graph_representation_name := None;
     parents_blocks := [];
     children_blocks := [];
     tainting_coefficient := 0 |}.

Definition set_graph_representation_name (n : string) (b : DFGVariableBlock)
    : DFGVariableBlock :=
  {| b_name := b_name b;
     b_function := b_function b;
     b_is_function_argument := b_is_function_argument b;
     b_is_function_return_value := b_is_function_return_value b;
     graph_representation_name := Some n;
     parents_blocks := parents_blocks b;
     children_blocks := children_blocks b;
     tainting_coefficient := tainting_coefficient b |}.

(** The body of the loop of [_create_blocks]. *)
Definition create_block (d : DFG) (variable : Variable_) : DFG :=
  match v_function variable with
  | Some variable_function =>
      if f_is_import variable_function then d
      else
        let new_block :=
          new_variable_block (v_name variable) variable_function
            (v_is_function_argument variable) (v_is_function_return_value variable) in
        with_variables_blocks d
          (variables_blocks d ++
             [set_graph_representation_name (_get_variable_name d new_block) new_block])
  | None => d
  end.

Definition _create_blocks (d : DFG) : DFG :=
  foldl create_block d (variables d).

Definition with_functions_calls_blocks (d : DFG) (l : list DFGFunctionCallBlock) : DFG :=
  {| variables := variables d;
     variables_blocks := variables_blocks d;
     constants_blocks := constants_blocks d;
     functions_calls_blocks := l;
     edges := edges d;
     all_functions_arguments := all_functions_arguments d |}.

(** The body of the loop of [_create_functions_calls]. *)
Definition create_function_call (d : DFG) (variable : Variable_) : DFG :=
  match v_value variable with
  | Some (FUNCTION_CALL operation) =>
      let new_block :=
        {| fcb_value := f_name (fc_function operation);
           fcb_arguments := arguments_list (fc_function operation) true false false;
           fcb_return_values := arguments_list (fc_function operation) false false true;
           fcb_function := v_function variable;
           fcb_call_number := fc_call_number operation |} in
      with_functions_calls_blocks d (functions_calls_blocks d ++ [new_block])
  | _ => d
  end.

Definition _create_functions_calls (d : DFG) : DFG :=
  foldl create_function_call d (variables d).

(** [[b for b in l if P b]], as the positions of the selected blocks;
    [i] is the position of the head of [l]. *)
Fixpoint positions_from {A : Type} (P : A → bool) (i : nat) (l : list A) : list nat :=
  match l with
  | [] => []
  | x :: l' => (if P x then [i] else []) ++ positions_from P (S i) l'
  end.

Definition positions {A : Type} (P : A → bool) (l : list A) : list nat :=
  positions_from P 0 l.

(** [variable.function == b.function and variable.name == b.name] *)
Definition is_destination (variable : Variable_) (b : DFGVariableBlock) : bool :=
  bool_decide (v_function variable = Some (b_function b)) &&
  bool_decide (v_name variable = b_name b).

(** The condition selecting the source blocks of one variable-typed operand. *)
Definition is_source (variable : Variable_) (parent_variable : Operand)
    (b : DFGVariableBlock) : bool :=
  match op_value parent_variable with
  | ListOf l =>
      bool_decide (v_function variable = Some (b_function b)) &&
      bool_decide (AName (b_name b) ∈ l)
  | Scalar _ =>
      bool_decide (v_function variable = Some (b_function b)) &&
      bool_decide (b_name b = v_name variable)
  end.

Definition operands (operation : list Element) : list Operand :=
  omap (λ v, match v with EOperand o => Some o | EOther _ => None end) operation.

Definition add_child (child : nat) (b : DFGVariableBlock) : DFGVariableBlock :=
  {| b_name := b_name b;
     b_function := b_function b;
     b_is_function_argument := b_is_function_argument b;
     b_is_function_return_value := b_is_function_return_value b;
     graph_representation_name := graph_representation_name b;
     parents_blocks := parents_blocks b;
     children_blocks := children_blocks b ++ [child];
     tainting_coefficient := tainting_coefficient b |}.

Definition add_parent (parent : nat) (b : DFGVariableBlock) : DFGVariableBlock :=
  {| b_name := b_name b;
     b_function := b_function b;
     b_is_function_argument := b_is_function_argument b;
     b_is_function_return_value := b_is_function_return_value b;
     graph_representation_name := graph_representation_name b;
     parents_blocks := parents_blocks b ++ [parent];
     children_blocks := children_blocks b;
     tainting_coefficient := tainting_coefficient b |}.

(** The body of [for source_block in source_blocks]. *)
Definition add_variable_edge (variable : Variable_) (destination_block : nat)
    (d : DFG) (source_block : nat) : DFG :=
  {| variables := variables d;
     variables_blocks :=
       alter (add_parent source_block) destination_block
         (alter (add_child destination_block) source_block (variables_blocks d));
     constants_blocks := constants_blocks d;
     functions_calls_blocks := functions_calls_blocks d;
     edges := edges d ++
       [{| e_source := VariableRef source_block;
           e_destination := destination_block;
           e_function := v_function variable |}];
     all_functions_arguments := all_functions_arguments d |}.

(** The literal of an integer-typed operand: [value[0]] for a list, which
    raises on the empty list, and [value] otherwise. *)
Definition constant_value (parent_constant : Operand) : result Atom :=
  match op_value parent_constant with
  | ListOf [] => Raise IndexError
  | ListOf (a :: _) => Ok a
  | Scalar a => Ok a
  end.

(** The body of [for parent_constant in parents_constants]. *)
Definition add_constant_edge (variable : Variable_) (destination_block : nat)
    (d : DFG) (parent_constant : Operand) : result DFG :=
  value ← constant_value parent_constant;
  let source_block :=
    {| c_value := value;
       c_id := length (constants_blocks d);
       c_variable := variable;
       c_function := v_function variable |} in
  Ok {| variables := variables d;
        variables_blocks := variables_blocks d;
        constants_blocks := constants_blocks d ++ [source_block];
        functions_calls_blocks := functions_calls_blocks d;
        edges := edges d ++
          [{| e_source := ConstantRef (length (constants_blocks d));
              e_destination := destination_block;
              e_function := v_function variable |}];
        all_functions_arguments := all_functions_arguments d |}.

Definition parents_variables (operation : list Element) : list Operand :=
  filter (λ v, op_type v = VARIABLE) (operands operation).

Definition parents_constants (operation : list Element) : list Operand :=
  filter (λ v, op_type v = INTEGER) (operands operation).

Definition source_blocks (d : DFG) (variable : Variable_) (operation : list Element)
    : list nat :=
  parents_variables operation ≫=
    (λ parent_variable, positions (is_source variable parent_variable) (variables_blocks d)).

(** The body of the loop of [_create_edges]. *)
Definition create_edges_of (d : DFG) (variable : Variable_) : result DFG :=
  match v_value variable with
  | None => Ok d
  | Some (FUNCTION_CALL _) => Ok d
  | Some (Expression operation) =>
      match positions (is_destination variable) (variables_blocks d) with
      | [] => Raise IndexError
      | destination_block :: _ =>
          let d' :=
            foldl (add_variable_edge variable destination_block) d
              (source_blocks d variable operation) in
          for_each (add_constant_edge variable destination_block) d'
            (parents_constants operation)
      end
  end.

Definition _create_edges (d : DFG) : result DFG :=
  for_each create_edges_of d (variables d).

Definition _create_dfg (d : DFG) : result DFG :=
  _create_edges (_create_functions_calls (_create_blocks d)).

(** ** Predicates and measures used in the statements *)

Implicit Types (bs : list DFGVariableBlock) (st : TaintState).
Implicit Types (d : DFG) (b : DFGVariableBlock).
Implicit Types (vs : list Variable_) (v : Variable_).
Implicit Types (es : list DFGEdge).

(** Two block lists have the same structure when they agree on everything but
    the coefficients. *)
Definition same_structure bs bs' : Prop :=
  set_coefficient 0 <$> bs = set_coefficient 0 <$> bs'.

(** Every reference held in a [children_blocks] list is a block of the list. *)
Definition wf_blocks bs : Prop :=
  Forall (λ b, Forall (λ c, c < length bs) (children_blocks b)) bs.

(** The measure that decreases at every iteration: a queued block that is
    not yet in [tainted_blocks] can start at most [visits_bound D u] visits,
    where [u] counts the blocks not yet in [tainted_blocks] and [D] bounds the
    length of every [children_blocks]. *)
Definition untainted (n : nat) (T : list nat) : nat :=
  length (filter (λ i, i ∉ T) (seq 0 n)).

Fixpoint visits_bound (D u : nat) : nat :=
  match u with
  | O => 1
  | S u' => 1 + D * visits_bound D u'
  end.

Definition weight (D n : nat) (T : list nat) (q : nat) : nat :=
  visits_bound D (untainted n T + (if decide (q ∈ T) then 1 else 0)).

Definition max_children bs : nat := max_list (length ∘ children_blocks <$> bs).

Definition taint_measure st : nat :=
  sum_list_with (weight (max_children (blocks st)) (length (blocks st)) (tainted_blocks st))
    (blocks_to_taint st).

(** The state of the loop refers to blocks of the list only. *)
Definition wf_state st : Prop :=
  wf_blocks (blocks st) ∧ Forall (λ q, q < length (blocks st)) (blocks_to_taint st).

(** What the taint operations leave alone: every list of the graph, and in
    the Variable Blocks everything but the coefficient. *)
Definition taint_frame d d' : Prop :=
  variables d' = variables d ∧
  constants_blocks d' = constants_blocks d ∧
  functions_calls_blocks d' = functions_calls_blocks d ∧
  edges d' = edges d ∧
  all_functions_arguments d' = all_functions_arguments d ∧
  same_structure (variables_blocks d) (variables_blocks d').

(** [_taint_variable] is called on a block of the graph. *)
Definition valid_operation (n : nat) (op : taint_operation) : Prop :=
  match op with
  | TaintVariable source_block => source_block < n
  | _ => True
  end.

(** Agreement of two blocks on every field but the coefficient. *)
Definition same_but_coefficient b b' : Prop :=
  b_name b' = b_name b ∧
  b_function b' = b_function b ∧
  b_is_function_argument b' = b_is_function_argument b ∧
  b_is_function_return_value b' = b_is_function_return_value b ∧
  graph_representation_name b' = graph_representation_name b ∧
  parents_blocks b' = parents_blocks b ∧
  children_blocks b' = children_blocks b.

(** The block [_create_blocks] builds for a variable, if it builds one. *)
Definition block_of d v : option DFGVariableBlock :=
  match v_function v with
  | Some f =>
      if f_is_import f then None
      else
        let new_block :=
          new_variable_block (v_name v) f (v_is_function_argument v)
            (v_is_function_return_value v) in
        Some (set_graph_representation_name (_get_variable_name d new_block) new_block)
  | None => None
  end.

(** The function of the variable is non-null and not an import. *)
Definition analysable v : Prop :=
  ∃ f, v_function v = Some f ∧ f_is_import f = false.

Global Instance analysable_dec v : Decision (analysable v).
Proof.
  unfold analysable. destruct (v_function v) as [f|].
  - destruct (f_is_import f) eqn:E.
    + right. intros (f' & ? & ?). simplify_eq. congruence.
    + left. by exists f.
  - right. by intros (f' & ? & ?).
Defined.

(** Two block lists hold blocks with the same names and functions. *)
Definition same_keys bs bs' : Prop :=
  Forall2 (λ b b', b_name b' = b_name b ∧ b_function b' = b_function b) bs bs'.

(** A block with more children and parents, and nothing else changed. *)
Definition extend_block (children parents : list nat) b : DFGVariableBlock :=
  {| b_name := b_name b;
     b_function := b_function b;
     b_is_function_argument := b_is_function_argument b;
     b_is_function_return_value := b_is_function_return_value b;
     graph_representation_name := graph_representation_name b;
     parents_blocks := parents_blocks b ++ parents;
     children_blocks := children_blocks b ++ children;
     tainting_coefficient := tainting_coefficient b |}.

Definition variable_edge v (destination_block source_block : nat) : DFGEdge :=
  {| e_source := VariableRef source_block;
     e_destination := destination_block;
     e_function := v_function v |}.

Definition constant_block v (id : nat) (value : Atom) : DFGConstantBlock :=
  {| c_value := value; c_id := id; c_variable := v; c_function := v_function v |}.

Definition constant_edge v (destination_block id : nat) : DFGEdge :=
  {| e_source := ConstantRef id;
     e_destination := destination_block;
     e_function := v_function v |}.

(** No integer-typed operand of the value of [v] carries an empty list. *)
Definition constants_readable v : Prop :=
  match v_value v with
  | Some (Expression operation) =>
      Forall (λ o, op_value o ≠ ListOf []) (parents_constants operation)
  | _ => True
  end.

(** The children and the parents of block [i] as the edge list records them:
    only edges whose source is a Variable Block count. *)
Definition edge_children (i : nat) es : list nat :=
  omap (λ e, match e_source e with
             | VariableRef s => if decide (s = i) then Some (e_destination e) else None
             | ConstantRef _ => None
             end) es.

Definition edge_parents (i : nat) es : list nat :=
  omap (λ e, match e_source e with
             | VariableRef s => if decide (e_destination e = i) then Some s else None
             | ConstantRef _ => None
             end) es.

Definition edges_registered d : Prop :=
  ∀ i b, variables_blocks d !! i = Some b →
    children_blocks b = edge_children i (edges d) ∧
    parents_blocks b = edge_parents i (edges d).

(** Every edge joins blocks of the graph. *)
Definition edges_in_range d : Prop :=
  Forall (λ e, e_destination e < length (variables_blocks d) ∧
               match e_source e with
               | VariableRef s => s < length (variables_blocks d)
               | ConstantRef k => k < length (constants_blocks d)
               end) (edges d).

(** The integer-typed operands of the values of [vs], in order. *)
Definition integer_operands vs : list (Variable_ * Operand) :=
  vs ≫= λ v,
    match v_value v with
    | Some (Expression operation) => (λ o, (v, o)) <$> parents_constants operation
    | _ => []
    end.

(** One Constant Block per integer-typed operand, numbered from 0. *)
Definition constants_built (cs : list DFGConstantBlock)
    (vos : list (Variable_ * Operand))
    : Prop :=
  Forall2 (λ c vo, c_variable c = vo.1 ∧ c_function c = v_function vo.1 ∧
                   constant_value vo.2 = Ok (c_value c)) cs vos ∧
  c_id <$> cs = seq 0 (length cs).

(** The edge of every Constant Block is in the edge list. *)
Definition constants_have_edges d : Prop :=
  ∀ k c, constants_blocks d !! k = Some c →
    ∃ dest rest,
      positions (is_destination (c_variable c)) (variables_blocks d) = dest :: rest ∧
      constant_edge (c_variable c) dest k ∈ edges d.

Definition edges_built d (done : list Variable_) : Prop :=
  edges_registered d ∧
  edges_in_range d ∧
  constants_built (constants_blocks d) (integer_operands done) ∧
  constants_have_edges d.

(** The graph on which [_create_dfg] runs [_create_edges]. *)
Definition blocks_created vs : DFG :=
  _create_functions_calls (_create_blocks (__init__ vs)).

(** ** Further predicates: reachability, decay, and the finished graph *)

(** Block [c] is in the [children_blocks] of block [p]. *)
Definition child_of bs (p c : nat) : Prop := c ∈ children_of bs p.

(** Block [i] can be reached from [source] along [children_blocks]. *)
Definition reachable bs (source i : nat) : Prop := rtc (child_of bs) source i.

(** The coefficient after [k] propagation steps from a source:
    [0.7 * (0.7 * ... * 1.0)]. *)
Definition decay (k : nat) : float :=
  Nat.iter k (PrimFloat.mul PROPAGATION_COEFFICIENT) 1%float.

(** What holds of every state of the loop of [_taint_variable source]. *)
Definition taint_invariant bs (source : nat) st : Prop :=
  wf_state st ∧
  same_structure bs (blocks st) ∧
  source ∈ blocks_to_taint st ++ tainted_blocks st ∧
  (∀ q, q ∈ blocks_to_taint st ++ tainted_blocks st →
     reachable bs source q ∧
     ∃ k, coefficient (blocks st) q = Some (decay k) ∧ (q ≠ source → 1 ≤ k)) ∧
  (∀ x c, x ∈ tainted_blocks st → c ∈ children_of bs x →
     c ∈ blocks_to_taint st ++ tainted_blocks st) ∧
  (∀ i, (∀ p, reachable bs source p → i ∉ children_of bs p) →
     blocks st !! i = blocks (taint_start source bs) !! i).

(** Block [i] can be reached from a block that is a function argument. *)
Definition argument_reachable bs (i : nat) : Prop :=
  ∃ a b, bs !! a = Some b ∧ b_is_function_argument b = true ∧ reachable bs a i.

(** Block [i] can be reached from a function argument listed in [todo]. *)
Definition reached_from bs0 (todo : list nat) (i : nat) : Prop :=
  ∃ a b, a ∈ todo ∧ bs0 !! a = Some b ∧ b_is_function_argument b = true ∧
         reachable bs0 a i.

(** The Call Block [_create_functions_calls] builds for a variable, if it
    builds one. *)
Definition call_block_of v : option DFGFunctionCallBlock :=
  match v_value v with
  | Some (FUNCTION_CALL operation) =>
      Some {| fcb_value := f_name (fc_function operation);
              fcb_arguments := arguments_list (fc_function operation) true false false;
              fcb_return_values := arguments_list (fc_function operation) false false true;
              fcb_function := v_function v;
              fcb_call_number := fc_call_number operation |}
  | _ => None
  end.

(** Agreement of two blocks on every field but [parents_blocks] and
    [children_blocks]. *)
Definition same_but_relations b b' : Prop :=
  b_name b' = b_name b ∧
  b_function b' = b_function b ∧
  b_is_function_argument b' = b_is_function_argument b ∧
  b_is_function_return_value b' = b_is_function_return_value b ∧
  graph_representation_name b' = graph_representation_name b ∧
  tainting_coefficient b' = tainting_coefficient b.

(** Every edge ends in a Variable Block of the function the edge is filed
    under, and starts in a block of that same function. *)
Definition edges_scoped d : Prop :=
  Forall (λ e,
    ∃ bd, variables_blocks d !! e_destination e = Some bd ∧
          e_function e = Some (b_function bd) ∧
          match e_source e with
          | VariableRef s =>
              ∃ bsrc, variables_blocks d !! s = Some bsrc ∧ b_function bsrc = b_function bd
          | ConstantRef k =>
              ∃ c, constants_blocks d !! k = Some c ∧ c_function c = Some (b_function bd)
          end) (edges d).

(** The (name, function) pair that identifies a variable or a block. *)
Definition variable_key v : string * option Function := (v_name v, v_function v).
Definition block_key b : string * option Function := (b_name b, Some (b_function b)).

(** Two runs of the loop of [_taint_variable] on block lists that differ in
    the coefficients only: the same blocks are queued and visited, and the
    blocks agree on every block that is queued or visited. *)
Definition in_step st1 st2 : Prop :=
  blocks_to_taint st1 = blocks_to_taint st2 ∧
  tainted_blocks st1 = tainted_blocks st2 ∧
  same_structure (blocks st1) (blocks st2) ∧
  ∀ i, i ∈ blocks_to_taint st1 ++ tainted_blocks st1 → blocks st1 !! i = blocks st2 !! i.

(** The number of times the visited block [parent] is written, as its own
    child, before the last write to the child [c] in one run of
    [taint_children_blocks] over the children [cs]. *)
Fixpoint self_decays (parent c : nat) (cs : list nat) : nat :=
  match cs with
  | [] => 0
  | x :: cs' =>
      if decide (c ∈ cs')
      then (if decide (x = parent) then 1 else 0) + self_decays parent c cs'
      else 0
  end.

(** The integer-typed operands of the direct expressions of [vs], read off
    the value of each variable: for every variable whose value is a direct
    expression, in order, the elements of the expression that are operands of
    type INTEGER, in order. *)
Definition integer_typed_operands vs : list (Variable_ * Operand) :=
  vs ≫= λ v,
    match v_value v with
    | Some (Expression operation) =>
        omap (λ element,
                match element with
                | EOperand o =>
                    match op_type o with
                    | INTEGER => Some (v, o)
                    | VARIABLE => None
                    end
                | EOther _ => None
                end) operation
    | _ => []
    end.

End DFG.

(** ** Colours (class [Tainting]) *)

Inductive conversion_error := ValueError | OverflowError.

Global Instance conversion_bind : MBind (sum conversion_error) := λ A B f x,
  match x with
  | inl e => inl e
  | inr a => f a
  end.

(** [int(x)] for a float: truncation towards zero; NaN and the infinities raise. *)
Definition int_of_float (x : float) : conversion_error + Z :=
  match Prim2SF x with
  | S754_nan => inl ValueError
  | S754_infinity _ => inl OverflowError
  | S754_zero _ => inr 0%Z
  | S754_finite s m e =>
      let magnitude :=
        match e with
        | Zneg p => Z.shiftr (Zpos m) (Zpos p)
        | _ => Z.shiftl (Zpos m) e
        end in
      inr (if s then Z.opp magnitude else magnitude)
  end.

Definition hex_digits (n : N) : string :=
  match n with
  | N0 => "0"
  | Npos p => HexString.Raw.of_pos p ""
  end.

(** ["%02x" % n] *)
Definition format_02x (n : Z) : string :=
  match n with
  | Zneg p => "-" +:+ hex_digits (Npos p)
  | _ =>
      let digits := hex_digits (Z.to_N n) in
      if (String.length digits <? 2)%nat then "0" +:+ digits else digits
  end.

Definition FULL_TAINTED_COLOR : float * float * float := (1, 0, 0)%float.

Definition _get_taint (coefficient : float) : conversion_error + string :=
  let '(c0, c1, c2) := FULL_TAINTED_COLOR in
  let hsv_tuple_taint :=
    ((0 + c0 + 0)%float, (0 + c1 + coefficient)%float, (0 + c2 + coefficient)%float) in
  let '(h0, h1, h2) := hsv_tuple_taint in
  r ← int_of_float (h0 * 255);
  g ← int_of_float ((1 - h1) * 255);
  b ← int_of_float ((1 - h2) * 255);
  inr ("#" +:+ format_02x r +:+ format_02x g +:+ format_02x b).

(** The value of the green and of the blue channel, before formatting. *)
Definition channel (coefficient : float) : conversion_error + Z :=
  int_of_float ((1 - (0 + 0 + coefficient)) * 255).

(** The colour is [#ff] followed twice by the same two hexadecimal digits. *)
Definition colour_of (n : Z) : string := "#ff" +:+ format_02x n +:+ format_02x n.

Definition colour_ok (c : float) : bool :=
  match channel c, _get_taint c with
  | inr n, inr s =>
      (0 <=? n)%Z && (n <=? 255)%Z && bool_decide (s = colour_of n)
  | _, _ => false
  end.

(** A coefficient in the half-open interval (0, 1] that has a colour. *)
Definition coefficient_ok (c : float) : bool :=
  colour_ok c && PrimFloat.ltb 0 c && PrimFloat.leb c 1.

(** [colours_ok n c]: the [n] coefficients [c], [0.7 * c], [0.7 * (0.7 * c)],
    ... all lie in (0, 1] and have a colour. *)
Fixpoint colours_ok (n : nat) (c : float) : bool :=
  match n with
  | O => true
  | S n' => coefficient_ok c && colours_ok n' (PROPAGATION_COEFFICIENT * c)
  end.

(** [all_decays P n c]: [P] holds of the [n] coefficients [c], [0.7 * c],
    [0.7 * (0.7 * c)], ... *)
Fixpoint all_decays (P : float → bool) (n : nat) (c : float) : bool :=
  match n with
  | O => true
  | S n' => P c && all_decays P n' (PROPAGATION_COEFFICIENT * c)
  end.

(** ** Concrete functions and graphs for the examples *)

Inductive Fn := F1 | F2 | FImp.

Global Instance Fn_eq_dec : EqDecision Fn.
Proof. solve_decision. Defined.

(** Two functions with ids 1 and 2 that both take an argument [x], and an
    imported function with an argument [y]. *)
Global Instance Fn_obj : FunctionObj Fn := {|
  f_id := λ f, match f with F1 => 1 | F2 => 2 | FImp => 3 end%Z;
  f_name := λ f, match f with F1 => "f1" | F2 => "f2" | FImp => "imp" end;
  f_is_import := λ f, match f with FImp => true | _ => false end;
  arguments_list := λ f explicit _ _,
    if explicit then match f with F1 | F2 => ["x"] | FImp => ["y"] end else [];
  arguments_list0 := λ f, match f with F1 | F2 => ["x"] | FImp => ["y"] end;
|}.

Definition example_block (n : string) (arg : bool) (ch : list nat) : DFGVariableBlock :=
  {| b_name := n; b_function := F1; b_is_function_argument := arg;
     b_is_function_return_value := false; graph_representation_name := None;
     parents_blocks := []; children_blocks := ch; tainting_coefficient := 0 |}.

(** A → B → C *)
Definition chain : list DFGVariableBlock :=
  [example_block "A" true [1]; example_block "B" false [2]; example_block "C" false []].

(** A → B, A → C, B → D, C → D *)
Definition diamond : list DFGVariableBlock :=
  [example_block "A" true [1; 2]; example_block "B" false [3];
   example_block "C" false [3]; example_block "D" false []].

Definition graph_of (bs : list (@DFGVariableBlock Fn)) : DFG :=
  {| variables := []; variables_blocks := bs; constants_blocks := [];
     functions_calls_blocks := []; edges := []; all_functions_arguments := [] |}.

Definition var (n : string) (f : option Fn) (arg : bool) (v : option VariableValue)
    : Variable_ :=
  {| v_name := n; v_function := f; v_is_function_argument := arg;
     v_is_function_return_value := false; v_value := v |}.
Definition opnd (t : OperandType) (v : OperandValue) : Element :=
  EOperand {| op_type := t; op_value := v |}.

(** The variables of a function [f1] with argument [a]: [b] merges [a] and
    the literal 3, [c] receives the result of a call of [f2], and [e] is
    computed from [b] (a scalar operand) and a list-valued literal. *)
Definition prog1 : list Variable_ :=
  [var "a" (Some F1) true None;
   var "b" (Some F1) false
     (Some (Expression [opnd VARIABLE (ListOf [AName "a"]); EOther "+";
                        opnd INTEGER (Scalar (AInt 3))]));
   var "c" (Some F1) false
     (Some (FUNCTION_CALL {| fc_function := F2; fc_call_number := 0 |}));
   var "e" (Some F1) false
     (Some (Expression [opnd VARIABLE (Scalar (AName "b"));
                        opnd INTEGER (ListOf [AInt 3; AInt 4])]))].


(** The graph [_create_dfg] builds for [prog1]. *)
Definition prog1_dfg : DFG :=
  Eval vm_compute in
    match _create_dfg (__init__ prog1) with
    | Ok d => d
    | Raise _ => __init__ prog1
    end.

(** An argument [x] in the functions with ids 1 and 2, and a variable [t]. *)
Definition prog_x : list Variable_ :=
  [var "x" (Some F1) true None; var "x" (Some F2) true None; var "t" (Some F1) false None].

(** A variable [y] of a function that is not an import, none of whose
    arguments is called [y], next to a variable of an imported function that
    has an argument [y]. *)
Definition prog_import : list Variable_ :=
  [var "y" (Some F1) false None; var "z" (Some FImp) false None].

(** A variable without function that is assigned an expression. *)
Definition prog_global : list Variable_ :=
  [var "g" None false (Some (Expression []))].

(** An argument [x] whose value names a variable by a scalar operand, which
    [_create_edges] resolves to the block of [x] itself, and a variable [y]
    computed from [x]: the block of [x] gets the children [x] and [y]. *)
Definition prog_self : list Variable_ :=
  [var "x" (Some F1) true (Some (Expression [opnd VARIABLE (Scalar (AName "w"))]));
   var "y" (Some F1) false (Some (Expression [opnd VARIABLE (ListOf [AName "x"])]))].

(** The graph [_create_dfg] builds for [prog_self]. *)
Definition prog_self_dfg : DFG :=
  Eval vm_compute in
    match _create_dfg (__init__ prog_self) with
    | Ok d => d
    | Raise _ => __init__ prog_self
    end.

Definition example_operations : list taint_operation :=
  [TaintFunctionsArguments; TaintVariable 1; CleanTainting; TaintVariable 2].

(** * Properties *)

Section Properties.

Context {Function : Type} `{FunctionObj Function}.

Implicit Types (bs : list (@DFGVariableBlock Function)) (st : @TaintState Function).
Implicit Types (d : @DFG Function) (b : @DFGVariableBlock Function).
Implicit Types (vs : list (@Variable_ Function)) (v : @Variable_ Function).
Implicit Types (es : list (@DFGEdge Function)).

(** ** The taint engine writes coefficients only *)

Lemma same_structure_refl bs : same_structure bs bs.
Proof. reflexivity. Qed.

Lemma same_structure_trans bs1 bs2 bs3 :
  same_structure bs1 bs2 → same_structure bs2 bs3 → same_structure bs1 bs3.
Proof. unfold same_structure. congruence. Qed.

Lemma same_structure_length bs bs' : same_structure bs bs' → length bs' = length bs.
Proof.
  intros E. apply (f_equal length) in E. by rewrite !length_fmap in E.
Qed.

Lemma same_structure_lookup bs bs' i :
  same_structure bs bs' →
  set_coefficient 0 <$> bs' !! i = set_coefficient 0 <$> bs !! i.
Proof.
  intros E. apply (f_equal (.!! i)) in E. by rewrite !list_lookup_fmap in E.
Qed.

Lemma same_structure_children bs bs' i :
  same_structure bs bs' → children_of bs' i = children_of bs i.
Proof.
  intros E. apply (same_structure_lookup _ _ i) in E. unfold children_of.
  by destruct (bs' !! i) as [b'|], (bs !! i) as [b|]; simplify_eq/=.
Qed.

Lemma same_structure_alter k i bs :
  same_structure bs (alter (set_coefficient k) i bs).
Proof.
  unfold same_structure. revert i. induction bs as [|b bs IH]; intros [|i]; csimpl; try done.
  by rewrite <- IH.
Qed.

Lemma same_structure_fmap k bs : same_structure bs (set_coefficient k <$> bs).
Proof.
  unfold same_structure. rewrite <- list_fmap_compose. by apply list_fmap_ext.
Qed.

Lemma taint_child_structure parent bs child :
  same_structure bs (taint_child parent bs child).
Proof.
  unfold taint_child. destruct (bs !! parent); [apply same_structure_alter | done].
Qed.

Lemma foldl_taint_child_structure parent cs bs :
  same_structure bs (foldl (taint_child parent) bs cs).
Proof.
  revert bs. induction cs as [|c cs IH]; intros bs; simpl; [done|].
  eapply same_structure_trans; [apply taint_child_structure | apply IH].
Qed.

Lemma taint_children_blocks_structure parent bs :
  same_structure bs (taint_children_blocks parent bs).
Proof. apply foldl_taint_child_structure. Qed.

Lemma taint_step_structure st st' :
  taint_step st = Some st' → same_structure (blocks st) (blocks st').
Proof.
  unfold taint_step. destruct (blocks_to_taint st); intros; simplify_eq/=.
  apply taint_children_blocks_structure.
Qed.

Lemma taint_loop_structure fuel st st' :
  taint_loop fuel st = Some st' → same_structure (blocks st) (blocks st').
Proof.
  revert st. induction fuel as [|fuel IH]; intros st; simpl.
  - destruct (blocks_to_taint st); intros; by simplify_eq.
  - destruct (blocks_to_taint st) eqn:Q; [intros; by simplify_eq|].
    destruct (taint_step st) as [st1|] eqn:S1; simpl; [|done].
    intros L. eapply same_structure_trans; [by apply taint_step_structure | by apply IH].
Qed.

Lemma _taint_variable_structure fuel source bs bs' :
  _taint_variable fuel source bs = Some bs' → same_structure bs bs'.
Proof.
  unfold _taint_variable, _taint_variable_run.
  destruct (taint_loop _ _) as [st|] eqn:L; intros; simplify_eq/=.
  apply taint_loop_structure in L.
  eapply same_structure_trans; [apply (same_structure_alter 1 source) | exact L].
Qed.

Lemma taint_arguments_from_structure fuel todo bs bs' :
  taint_arguments_from fuel todo bs = Some bs' → same_structure bs bs'.
Proof.
  revert bs. induction todo as [|i todo IH]; intros bs; simpl.
  - intros; by simplify_eq.
  - destruct (bs !! i) as [b|]; [|apply IH].
    destruct (b_is_function_argument b); [|apply IH].
    destruct (_taint_variable fuel i bs) as [bs1|] eqn:T; simpl; [|done].
    intros R. eapply same_structure_trans; [by eapply _taint_variable_structure | by apply IH].
Qed.

(** ** Termination of the loop of [_taint_variable] *)

Lemma wf_blocks_children bs i c : wf_blocks bs → c ∈ children_of bs i → c < length bs.
Proof.
  intros W. unfold children_of. destruct (bs !! i) as [b|] eqn:L; simpl; [|by intros ?%elem_of_nil].
  intros Hc. apply list_elem_of_lookup_2 in L.
  unfold wf_blocks in W. rewrite Forall_forall in W. specialize (W _ L).
  rewrite Forall_forall in W. by apply W.
Qed.

Lemma wf_blocks_structure bs bs' : same_structure bs bs' → wf_blocks bs → wf_blocks bs'.
Proof.
  intros E W. apply Forall_lookup_2. intros i b' L. apply Forall_forall. intros c Hc.
  rewrite (same_structure_length _ _ E).
  apply (wf_blocks_children bs i c W).
  rewrite <- (same_structure_children _ _ i E). unfold children_of. by rewrite L.
Qed.

Lemma visits_bound_pos D u : 1 ≤ visits_bound D u.
Proof. destruct u; simpl; lia. Qed.

Lemma visits_bound_mono D u u' : u ≤ u' → visits_bound D u ≤ visits_bound D u'.
Proof.
  induction 1 as [|u' _ IH]; simpl; [done|].
  pose proof (visits_bound_pos D u').
  destruct D; simpl; [|nia]. clear. induction u; simpl; lia.
Qed.

Lemma untainted_in_snoc (l T : list nat) h :
  h ∈ T → filter (λ i, i ∉ T ++ [h]) l = filter (λ i, i ∉ T) l.
Proof.
  intros Hh. apply list_filter_iff. intros x.
  rewrite elem_of_app, list_elem_of_singleton. intuition (subst; done).
Qed.

Lemma untainted_out_snoc (l T : list nat) h :
  h ∉ l → filter (λ i, i ∉ T ++ [h]) l = filter (λ i, i ∉ T) l.
Proof.
  induction l as [|x l IH]; [done|]. intros [Hx Hl]%not_elem_of_cons.
  rewrite !filter_cons, IH by done. apply decide_ext.
  rewrite elem_of_app, list_elem_of_singleton. intuition (subst; done).
Qed.

Lemma untainted_new_snoc (l T : list nat) h :
  NoDup l → h ∈ l → h ∉ T →
  S (length (filter (λ i, i ∉ T ++ [h]) l)) = length (filter (λ i, i ∉ T) l).
Proof.
  intros ND Hin HT. induction l as [|x l IH]; [by apply elem_of_nil in Hin|].
  apply NoDup_cons in ND as [Hx ND]. rewrite !filter_cons.
  destruct (decide (x = h)) as [->|Hne].
  - rewrite decide_False, decide_True by (rewrite ?elem_of_app, ?list_elem_of_singleton; intuition (subst; done)).
    simpl. by rewrite untainted_out_snoc.
  - apply elem_of_cons in Hin as [->|Hin]; [done|].
    destruct (decide (x ∈ T)).
    + rewrite !decide_False by (rewrite ?elem_of_app, ?list_elem_of_singleton; intuition (subst; done)).
      by apply IH.
    + rewrite !decide_True by (rewrite ?elem_of_app, ?list_elem_of_singleton; intuition (subst; done)).
      simpl. f_equal. by apply IH.
Qed.

Lemma untainted_snoc n T h :
  h < n →
  untainted n (T ++ [h]) + (if decide (h ∈ T) then 0 else 1) = untainted n T.
Proof.
  intros Hh. unfold untainted. case_decide.
  - rewrite untainted_in_snoc by done. lia.
  - rewrite <- (untainted_new_snoc (seq 0 n) T h); [lia|apply NoDup_seq| |done].
    apply elem_of_seq. lia.
Qed.

Lemma weight_snoc_le D n T h q :
  h < n → weight D n (T ++ [h]) q ≤ weight D n T q.
Proof.
  intros Hh. unfold weight. pose proof (untainted_snoc n T h Hh) as E.
  apply visits_bound_mono. destruct (decide (h ∈ T)) as [Hin|Hout].
  - destruct (decide (q ∈ T ++ [h])) as [[?|Hq%list_elem_of_singleton]%elem_of_app|?];
      destruct (decide (q ∈ T)); subst; try done; lia.
  - repeat case_decide; lia.
Qed.

Lemma weight_head D n T h :
  h < n →
  weight D n T h = 1 + D * visits_bound D (untainted n (T ++ [h])).
Proof.
  intros Hh. unfold weight. pose proof (untainted_snoc n T h Hh) as E.
  destruct (decide (h ∈ T)).
  - replace (untainted n T + 1) with (S (untainted n (T ++ [h]))) by lia. done.
  - replace (untainted n T + 0) with (S (untainted n (T ++ [h]))) by lia. done.
Qed.

Lemma sum_weight_new D n T (cs : list nat) :
  sum_list_with (weight D n T) (filter (λ c, c ∉ T) cs)
  ≤ length cs * visits_bound D (untainted n T).
Proof.
  induction cs as [|c cs IH]; simpl; [lia|]. rewrite filter_cons. case_decide; simpl; [|lia].
  unfold weight at 1. rewrite decide_False by done. rewrite Nat.add_0_r. lia.
Qed.

Lemma sum_weight_snoc_le D n T h (l : list nat) :
  h < n →
  sum_list_with (weight D n (T ++ [h])) l ≤ sum_list_with (weight D n T) l.
Proof.
  intros Hh. induction l as [|x l IH]; simpl; [lia|].
  pose proof (weight_snoc_le D n T h x Hh). lia.
Qed.

Lemma children_le_max bs i : length (children_of bs i) ≤ max_children bs.
Proof.
  unfold children_of, max_children. destruct (bs !! i) as [b|] eqn:L; simpl; [|lia].
  apply max_list_elem_of_le. apply list_elem_of_fmap. exists b. split; [done|].
  by eapply list_elem_of_lookup_2.
Qed.

Lemma max_children_structure bs bs' :
  same_structure bs bs' → max_children bs' = max_children bs.
Proof.
  intros E. unfold max_children. f_equal.
  apply (f_equal (fmap (length ∘ children_blocks))) in E.
  rewrite <- !list_fmap_compose in E. done.
Qed.

Lemma taint_step_wf st st' : wf_state st → taint_step st = Some st' → wf_state st'.
Proof.
  intros [W Q] S1. pose proof (taint_step_structure _ _ S1) as E.
  unfold taint_step in S1. destruct (blocks_to_taint st) as [|h rest]; simplify_eq/=.
  apply Forall_cons in Q as [Hh Q]. split; simpl.
  - by eapply wf_blocks_structure.
  - rewrite (same_structure_length _ _ E). apply Forall_app. split; [done|].
    apply Forall_forall. intros c [_ Hc]%list_elem_of_filter. by eapply wf_blocks_children.
Qed.

Lemma taint_step_measure st st' :
  wf_state st → taint_step st = Some st' → taint_measure st' < taint_measure st.
Proof.
  intros [W Q] S1. pose proof (taint_step_structure _ _ S1) as E.
  unfold taint_measure. rewrite (max_children_structure _ _ E), (same_structure_length _ _ E).
  unfold taint_step in S1. destruct (blocks_to_taint st) as [|h rest]; simplify_eq/=.
  apply Forall_cons in Q as [Hh Q].
  rewrite sum_list_with_app, weight_head by done.
  pose proof (sum_weight_snoc_le (max_children (blocks st)) (length (blocks st))
                (tainted_blocks st) h rest Hh).
  pose proof (sum_weight_new (max_children (blocks st)) (length (blocks st))
                (tainted_blocks st ++ [h]) (children_of (blocks st) h)).
  pose proof (children_le_max (blocks st) h).
  nia.
Qed.

Lemma taint_loop_terminates fuel st :
  wf_state st → taint_measure st < fuel → is_Some (taint_loop fuel st).
Proof.
  revert st. induction fuel as [|fuel IH]; intros st W M; [lia|]. simpl.
  destruct (blocks_to_taint st) as [|h rest] eqn:Q; [done|].
  destruct (taint_step st) as [st1|] eqn:S1; [|unfold taint_step in S1; by rewrite Q in S1].
  simpl. apply IH; [by eapply taint_step_wf|].
  pose proof (taint_step_measure _ _ W S1). lia.
Qed.

Lemma taint_loop_fuel_mono fuel fuel' st st' :
  fuel ≤ fuel' → taint_loop fuel st = Some st' → taint_loop fuel' st = Some st'.
Proof.
  revert fuel' st. induction fuel as [|fuel IH]; intros fuel' st Hle; simpl.
  - destruct (blocks_to_taint st) eqn:Q; [|done]. intros. destruct fuel'; simpl; by rewrite Q.
  - destruct (blocks_to_taint st) eqn:Q.
    + intros. destruct fuel'; simpl; by rewrite Q.
    + destruct fuel' as [|fuel']; [lia|]. simpl. rewrite Q.
      destruct (taint_step st) as [st1|]; simpl; [|done]. apply IH. lia.
Qed.

Lemma taint_start_wf source bs :
  wf_blocks bs → source < length bs → wf_state (taint_start source bs).
Proof.
  intros W Hs. split; simpl.
  - eapply wf_blocks_structure; [apply same_structure_alter | done].
  - rewrite length_alter. by apply Forall_singleton.
Qed.

Lemma _taint_variable_run_terminates source bs :
  wf_blocks bs → source < length bs →
  ∃ fuel st, _taint_variable_run fuel source bs = Some st.
Proof.
  intros W Hs. exists (S (taint_measure (taint_start source bs))).
  apply (taint_loop_terminates _ (taint_start source bs)); [by apply taint_start_wf | lia].
Qed.

Lemma taint_loop_final fuel st st' :
  taint_loop fuel st = Some st' → blocks_to_taint st' = [].
Proof.
  revert st. induction fuel as [|fuel IH]; intros st; simpl.
  - destruct (blocks_to_taint st) eqn:Q; intros; by simplify_eq.
  - destruct (blocks_to_taint st) eqn:Q; [intros; by simplify_eq|].
    destruct (taint_step st) as [st1|]; simpl; [apply IH | done].
Qed.

Lemma taint_steps_wf st st' : wf_state st → taint_steps st st' → wf_state st'.
Proof. intros W R. induction R as [|st1 st2 st3 S1 _ IH]; [done|]. eauto using taint_step_wf. Qed.

Lemma taint_loop_steps fuel st st' : taint_loop fuel st = Some st' → taint_steps st st'.
Proof.
  revert st. induction fuel as [|fuel IH]; intros st; simpl.
  - destruct (blocks_to_taint st) eqn:Q; intros; simplify_eq. apply rtc_refl.
  - destruct (blocks_to_taint st) eqn:Q; [intros; simplify_eq; apply rtc_refl|].
    destruct (taint_step st) as [st1|] eqn:S1; simpl; [|done].
    intros L. eapply rtc_l; [exact S1 | by apply IH].
Qed.

Lemma coefficient_alter k i j bs :
  coefficient (alter (set_coefficient k) i bs) j =
  if decide (i = j) then (λ _, k) <$> coefficient bs j else coefficient bs j.
Proof.
  unfold coefficient. rewrite list_lookup_alter. case_decide; [|done].
  subst. by destruct (bs !! j).
Qed.

Lemma taint_child_lookup_ne parent bs child i :
  i ≠ child → taint_child parent bs child !! i = bs !! i.
Proof.
  intros Hne. unfold taint_child. destruct (bs !! parent); [|done].
  by apply list_lookup_alter_ne.
Qed.

Lemma taint_child_length parent bs child :
  length (taint_child parent bs child) = length bs.
Proof. unfold taint_child. destruct (bs !! parent); [apply length_alter | done]. Qed.

Lemma foldl_taint_child_spec parent cs bs k :
  coefficient bs parent = Some k →
  Forall (λ c, c < length bs) cs →
  (∀ i, i ∉ cs → foldl (taint_child parent) bs cs !! i = bs !! i) ∧
  (∀ c, c ∈ cs →
     ∃ j, coefficient (foldl (taint_child parent) bs cs) c
          = Some (PROPAGATION_COEFFICIENT * Nat.iter j (PrimFloat.mul PROPAGATION_COEFFICIENT) k)%float
          ∧ (parent ∉ cs → j = 0)).
Proof.
  revert bs k. induction cs as [|c0 cs IH]; intros bs k Hk Hcs; simpl.
  { split; [done|]. by intros c ?%elem_of_nil. }
  apply Forall_cons in Hcs as [Hc0 Hcs].
  set (bs1 := taint_child parent bs c0).
  assert (E1 : bs1 = alter (set_coefficient (PROPAGATION_COEFFICIENT * k)) c0 bs).
  { unfold bs1, taint_child. unfold coefficient in Hk.
    destruct (bs !! parent); simplify_eq/=. done. }
  assert (Hk1 : coefficient bs1 parent
                = Some (if decide (c0 = parent) then (PROPAGATION_COEFFICIENT * k)%float else k)).
  { rewrite E1, coefficient_alter. case_decide; [by rewrite Hk|done]. }
  assert (Hcs1 : Forall (λ c, c < length bs1) cs).
  { unfold bs1. by rewrite taint_child_length. }
  destruct (IH bs1 _ Hk1 Hcs1) as [IHa IHb]. split.
  - intros i [Hi0 Hi]%not_elem_of_cons. rewrite IHa by done.
    by apply taint_child_lookup_ne.
  - intros c Hc. destruct (decide (c ∈ cs)) as [Hin|Hout].
    + destruct (IHb c Hin) as (j & Hj & Hj0).
      exists (if decide (c0 = parent) then S j else j). split.
      * rewrite Hj. case_decide; [|done]. by rewrite Nat.iter_succ_r.
      * intros [Hp0 Hp]%not_elem_of_cons. rewrite decide_False by done. by apply Hj0.
    + apply elem_of_cons in Hc as [->|Hc]; [|done].
      exists 0. split; [|done]. unfold coefficient. rewrite IHa by done.
      fold (coefficient bs1 c0). rewrite E1, coefficient_alter, decide_True by done.
      unfold coefficient. destruct (lookup_lt_is_Some_2 bs c0 Hc0) as [b0 ->]. done.
Qed.

(** One visit: the children of the visited block receive [0.7] times its
    coefficient, every other block keeps its coefficient, and the children that
    are not yet in [tainted_blocks] are queued behind the blocks already
    waiting. *)
Lemma taint_step_spec st head rest p :
  wf_state st →
  blocks_to_taint st = head :: rest →
  blocks st !! head = Some p →
  ∃ st', taint_step st = Some st' ∧
    tainted_blocks st' = tainted_blocks st ++ [head] ∧
    blocks_to_taint st' =
      rest ++ filter (λ c, c ∉ tainted_blocks st ++ [head]) (children_blocks p) ∧
    (∀ i, i ∉ children_blocks p → blocks st' !! i = blocks st !! i) ∧
    (∀ c, c ∈ children_blocks p →
       ∃ j, coefficient (blocks st') c
            = Some (PROPAGATION_COEFFICIENT *
                    Nat.iter j (PrimFloat.mul PROPAGATION_COEFFICIENT) (tainting_coefficient p))%float
            ∧ (head ∉ children_blocks p → j = 0)).
Proof.
  intros [W Q] HQ Hp. unfold taint_step. rewrite HQ. eexists. split; [done|]. simpl.
  assert (Hch : children_of (blocks st) head = children_blocks p).
  { unfold children_of. by rewrite Hp. }
  rewrite Hch. do 2 (split; [done|]).
  unfold taint_children_blocks. rewrite Hch.
  apply foldl_taint_child_spec.
  - unfold coefficient. by rewrite Hp.
  - apply Forall_forall. intros c Hc. apply (wf_blocks_children _ head c W). by rewrite Hch.
Qed.

Lemma chain_taint d A B C :
  variables_blocks d = [A; B; C] →
  children_blocks A = [1] → children_blocks B = [2] → children_blocks C = [] →
  b_is_function_argument A = true →
  b_is_function_argument B = false →
  b_is_function_argument C = false →
  ∃ d', _taint_functions_arguments 3 d = Some d' ∧
    tainting_coefficient <$> variables_blocks d' =
      [1; PROPAGATION_COEFFICIENT; PROPAGATION_COEFFICIENT * PROPAGATION_COEFFICIENT]%float.
Proof.
  intros Hd HA HB HC aA aB aC.
  destruct d as [vs bs cs fs es args], A, B, C; simplify_eq/=.
  eexists. split; [vm_compute; reflexivity | vm_compute; reflexivity].
Qed.

(** ** Sequences of taint operations *)

Lemma _taint_variable_fuel_mono fuel fuel' source bs bs' :
  fuel ≤ fuel' → _taint_variable fuel source bs = Some bs' →
  _taint_variable fuel' source bs = Some bs'.
Proof.
  unfold _taint_variable, _taint_variable_run. intros Hle.
  destruct (taint_loop fuel _) as [st|] eqn:L; intros; simplify_eq/=.
  by rewrite (taint_loop_fuel_mono _ _ _ _ Hle L).
Qed.

Lemma _taint_variable_terminates source bs :
  wf_blocks bs → source < length bs → ∃ fuel bs', _taint_variable fuel source bs = Some bs'.
Proof.
  intros W Hs. destruct (_taint_variable_run_terminates source bs W Hs) as (fuel & st & R).
  exists fuel, (blocks st). unfold _taint_variable. by rewrite R.
Qed.

Lemma taint_arguments_from_fuel_mono fuel fuel' todo bs bs' :
  fuel ≤ fuel' → taint_arguments_from fuel todo bs = Some bs' →
  taint_arguments_from fuel' todo bs = Some bs'.
Proof.
  intros Hle. revert bs. induction todo as [|i todo IH]; intros bs; simpl; [done|].
  destruct (bs !! i) as [b|]; [|apply IH].
  destruct (b_is_function_argument b); [|apply IH].
  destruct (_taint_variable fuel i bs) as [bs1|] eqn:T; simpl; [|done].
  rewrite (_taint_variable_fuel_mono _ _ _ _ _ Hle T). simpl. apply IH.
Qed.

Lemma taint_arguments_from_terminates todo bs :
  wf_blocks bs → ∃ fuel bs', taint_arguments_from fuel todo bs = Some bs'.
Proof.
  revert bs. induction todo as [|i todo IH]; intros bs W; simpl; [by exists 0, bs|].
  destruct (bs !! i) as [b|] eqn:L; [|by apply IH].
  destruct (b_is_function_argument b); [|by apply IH].
  destruct (_taint_variable_terminates i bs W (lookup_lt_Some _ _ _ L)) as (f1 & bs1 & T).
  destruct (IH bs1) as (f2 & bs2 & R).
  { eapply wf_blocks_structure; [by eapply _taint_variable_structure | done]. }
  exists (f1 `max` f2), bs2.
  rewrite (_taint_variable_fuel_mono f1 _ _ _ _ (Nat.le_max_l _ _) T). simpl.
  by apply (taint_arguments_from_fuel_mono f2 _ _ _ _ (Nat.le_max_r _ _)).
Qed.

Lemma taint_frame_refl d : taint_frame d d.
Proof. by repeat split. Qed.

Lemma taint_frame_trans d1 d2 d3 : taint_frame d1 d2 → taint_frame d2 d3 → taint_frame d1 d3.
Proof.
  unfold taint_frame. intros (?&?&?&?&?&?) (?&?&?&?&?&?).
  repeat split; first [congruence | by eapply same_structure_trans].
Qed.

Lemma with_variables_blocks_frame d bs :
  same_structure (variables_blocks d) bs → taint_frame d (with_variables_blocks d bs).
Proof. by repeat split. Qed.

Lemma run_operation_frame fuel d op d' : run_operation fuel d op = Some d' → taint_frame d d'.
Proof.
  destruct op as [|source|]; simpl.
  - unfold _taint_functions_arguments.
    destruct (taint_arguments_from _ _ _) as [bs'|] eqn:R; intros; simplify_eq/=.
    apply with_variables_blocks_frame. by eapply taint_arguments_from_structure.
  - destruct (_taint_variable _ _ _) as [bs'|] eqn:R; intros; simplify_eq/=.
    apply with_variables_blocks_frame. by eapply _taint_variable_structure.
  - intros; simplify_eq. apply with_variables_blocks_frame, same_structure_fmap.
Qed.

Lemma run_operations_frame fuel d ops d' :
  run_operations fuel d ops = Some d' → taint_frame d d'.
Proof.
  revert d. induction ops as [|op ops IH]; intros d; simpl.
  - intros; simplify_eq. apply taint_frame_refl.
  - destruct (run_operation fuel d op) as [d1|] eqn:R; simpl; [|done].
    intros R'. eapply taint_frame_trans; [by eapply run_operation_frame | by apply IH].
Qed.

Lemma run_operation_fuel_mono fuel fuel' d op d' :
  fuel ≤ fuel' → run_operation fuel d op = Some d' → run_operation fuel' d op = Some d'.
Proof.
  intros Hle. destruct op as [|source|]; simpl; [| |done].
  - unfold _taint_functions_arguments.
    destruct (taint_arguments_from fuel _ _) as [bs'|] eqn:R; intros; simplify_eq/=.
    by rewrite (taint_arguments_from_fuel_mono _ _ _ _ _ Hle R).
  - destruct (_taint_variable fuel _ _) as [bs'|] eqn:R; intros; simplify_eq/=.
    by rewrite (_taint_variable_fuel_mono _ _ _ _ _ Hle R).
Qed.

Lemma run_operations_fuel_mono fuel fuel' d ops d' :
  fuel ≤ fuel' → run_operations fuel d ops = Some d' → run_operations fuel' d ops = Some d'.
Proof.
  intros Hle. revert d. induction ops as [|op ops IH]; intros d; simpl; [done|].
  destruct (run_operation fuel d op) as [d1|] eqn:R; simpl; [|done].
  rewrite (run_operation_fuel_mono _ _ _ _ _ Hle R). simpl. apply IH.
Qed.

Lemma run_operation_terminates d op :
  wf_blocks (variables_blocks d) → valid_operation (length (variables_blocks d)) op →
  ∃ fuel d', run_operation fuel d op = Some d'.
Proof.
  intros W V. destruct op as [|source|]; simpl in *.
  - destruct (taint_arguments_from_terminates (seq 0 (length (variables_blocks d))) _ W)
      as (fuel & bs' & R).
    exists fuel, (with_variables_blocks d bs'). unfold _taint_functions_arguments. by rewrite R.
  - destruct (_taint_variable_terminates source _ W V) as (fuel & bs' & R).
    exists fuel, (with_variables_blocks d bs'). by rewrite R.
  - by exists 0, (_clean_tainting d).
Qed.

Lemma run_operations_terminates d ops :
  wf_blocks (variables_blocks d) →
  Forall (valid_operation (length (variables_blocks d))) ops →
  ∃ fuel d', run_operations fuel d ops = Some d'.
Proof.
  revert d. induction ops as [|op ops IH]; intros d W V; simpl; [by exists 0, d|].
  apply Forall_cons in V as [V1 V].
  destruct (run_operation_terminates d op W V1) as (f1 & d1 & R1).
  pose proof (run_operation_frame _ _ _ _ R1) as (_&_&_&_&_&E).
  destruct (IH d1) as (f2 & d2 & R2).
  { by eapply wf_blocks_structure. }
  { by rewrite (same_structure_length _ _ E). }
  exists (f1 `max` f2), d2.
  rewrite (run_operation_fuel_mono f1 _ _ _ _ (Nat.le_max_l _ _) R1). simpl.
  by apply (run_operations_fuel_mono f2 _ _ _ _ (Nat.le_max_r _ _)).
Qed.

Lemma _clean_tainting_frame d d' : taint_frame d d' → _clean_tainting d' = _clean_tainting d.
Proof.
  intros (?&?&?&?&?&E). unfold _clean_tainting, with_variables_blocks.
  unfold same_structure in E. by f_equal.
Qed.

Lemma _clean_tainting_zero d :
  Forall (λ b, tainting_coefficient b = 0%float) (variables_blocks (_clean_tainting d)).
Proof. simpl. apply Forall_fmap. by apply Forall_true. Qed.

Lemma _clean_tainting_idemp d : _clean_tainting (_clean_tainting d) = _clean_tainting d.
Proof. apply _clean_tainting_frame, with_variables_blocks_frame, same_structure_fmap. Qed.

Lemma same_structure_Forall2 bs bs' :
  same_structure bs bs' → Forall2 same_but_coefficient bs bs'.
Proof.
  unfold same_structure. revert bs'.
  induction bs as [|b bs IH]; intros [|b' bs'] E; simplify_eq/=; constructor.
  - by repeat split.
  - by apply IH.
Qed.

(** C8: [_clean_tainting] sets the coefficient of every Variable Block to 0.
    After any sequence of calls of [_taint_functions_arguments],
    [_taint_variable] and [_clean_tainting] (which all return), one call of
    [_clean_tainting] gives the all-zero state, the same one as on the graph
    before the sequence; a second call changes nothing; and
    [_taint_functions_arguments] after [_clean_tainting] gives the same
    coefficients whatever was done before. *)
Theorem _clean_tainting_resets d ops :
  wf_blocks (variables_blocks d) →
  Forall (valid_operation (length (variables_blocks d))) ops →
  ∃ fuel d',
    run_operations fuel d ops = Some d' ∧
    variables_blocks (_clean_tainting d') = set_coefficient 0 <$> variables_blocks d' ∧
    Forall (λ b, tainting_coefficient b = 0%float) (variables_blocks (_clean_tainting d')) ∧
    _clean_tainting d' = _clean_tainting d ∧
    _clean_tainting (_clean_tainting d') = _clean_tainting d' ∧
    ∃ fuel' tainted,
      _taint_functions_arguments fuel' (_clean_tainting d') = Some tainted ∧
      _taint_functions_arguments fuel' (_clean_tainting d) = Some tainted.
Proof.
  intros W V. destruct (run_operations_terminates d ops W V) as (fuel & d' & R).
  pose proof (run_operations_frame _ _ _ _ R) as F.
  exists fuel, d'. split; [done|]. split; [done|].
  split; [apply _clean_tainting_zero|].
  split; [by apply _clean_tainting_frame|].
  split; [apply _clean_tainting_idemp|].
  rewrite (_clean_tainting_frame _ _ F).
  destruct (run_operation_terminates (_clean_tainting d) TaintFunctionsArguments)
    as (fuel' & tainted & T); [|done|by exists fuel', tainted].
  eapply wf_blocks_structure; [apply (same_structure_fmap 0)|done].
Qed.

(** C9: the taint operations write coefficients only.  Any sequence of calls
    of [_taint_functions_arguments], [_taint_variable] and [_clean_tainting]
    returns, and leaves [variables], [constants_blocks],
    [functions_calls_blocks] and [edges] as they were; [variables_blocks] holds
    the same blocks in the same order, each with its name, function, flags,
    display name, [parents_blocks] and [children_blocks] unchanged.  The same
    holds for one call of [taint_children_blocks]. *)
Theorem taint_operations_frame d ops :
  wf_blocks (variables_blocks d) →
  Forall (valid_operation (length (variables_blocks d))) ops →
  (∃ fuel d', run_operations fuel d ops = Some d') ∧
  (∀ fuel d', run_operations fuel d ops = Some d' →
     variables d' = variables d ∧
     constants_blocks d' = constants_blocks d ∧
     functions_calls_blocks d' = functions_calls_blocks d ∧
     edges d' = edges d ∧
     Forall2 same_but_coefficient (variables_blocks d) (variables_blocks d')) ∧
  (∀ parent_block,
     Forall2 same_but_coefficient (variables_blocks d)
       (taint_children_blocks parent_block (variables_blocks d))).
Proof.
  intros W V. split; [by apply run_operations_terminates|]. split.
  - intros fuel d' R. destruct (run_operations_frame _ _ _ _ R) as (?&?&?&?&?&E).
    repeat split; try done. by apply same_structure_Forall2.
  - intros parent_block. apply same_structure_Forall2, taint_children_blocks_structure.
Qed.

(** ** Display names *)

Lemma string_length_app (s1 s2 : string) :
  String.length (s1 +:+ s2) = String.length s1 + String.length s2.
Proof. induction s1 as [|a s1 IH]; simpl; [done|]. by rewrite IH. Qed.

Lemma prefixed_name_neq b : prefixed_name b ≠ b_name b.
Proof.
  intros E. apply (f_equal String.length) in E. unfold prefixed_name in E.
  rewrite !string_length_app in E. simpl in E. lia.
Qed.

Lemma elem_of_all_functions_arguments vs (n : string) :
  n ∈ all_functions_arguments (__init__ vs) ↔
  ∃ v f, v ∈ vs ∧ v_function v = Some f ∧ n ∈ arguments_list0 f.
Proof.
  simpl. rewrite list_elem_of_In, in_concat. split.
  - intros (l & Hl & Hn). apply list_elem_of_In, list_elem_of_fmap in Hl as (f & -> & Hf).
    apply list_elem_of_omap in Hf as (v & Hv & Hf). exists v, f.
    apply list_elem_of_In in Hn. done.
  - intros (v & f & Hv & Hf & Hn). exists (arguments_list0 f).
    rewrite <- !list_elem_of_In. split; [|done].
    apply list_elem_of_fmap. exists f. split; [done|].
    apply list_elem_of_omap. by exists v.
Qed.

(** C3 (amended): the argument names [_get_variable_name] looks a name up in
    are those of the function of every variable that has a function, imported
    functions included ([DFG.__init__] filters out [None] only).  The result is
    the prefixed identifier [f<function.id>_<name>] exactly when the bare name
    of the block is one of these names, and the bare name exactly when it is
    not. *)
Theorem _get_variable_name_prefix vs b :
  (b_name b ∈ all_functions_arguments (__init__ vs) ↔
     ∃ v f, v ∈ vs ∧ v_function v = Some f ∧ b_name b ∈ arguments_list0 f) ∧
  (_get_variable_name (__init__ vs) b = "f" +:+ pretty (f_id (b_function b)) +:+ "_" +:+ b_name b
     ↔ b_name b ∈ all_functions_arguments (__init__ vs)) ∧
  (_get_variable_name (__init__ vs) b = b_name b
     ↔ b_name b ∉ all_functions_arguments (__init__ vs)).
Proof.
  split; [apply elem_of_all_functions_arguments|].
  unfold _get_variable_name. fold (prefixed_name b).
  pose proof (prefixed_name_neq b).
  case_decide; split; split; try done; intros; congruence.
Qed.

(** ** Block construction *)

Lemma block_of_Some d v b : block_of d v = Some b → analysable v.
Proof.
  unfold block_of, analysable. destruct (v_function v) as [f|]; [|done].
  destruct (f_is_import f) eqn:E; [done|]. by exists f.
Qed.

Lemma block_of_None d v : block_of d v = None → ¬ analysable v.
Proof.
  unfold block_of, analysable. intros E (f & Hf & Hi). by rewrite Hf, Hi in E.
Qed.

Lemma block_of_with_variables_blocks d bs v :
  block_of (with_variables_blocks d bs) v = block_of d v.
Proof. done. Qed.

Lemma create_block_block_of d v :
  create_block d v =
  with_variables_blocks d (variables_blocks d ++ option_list (block_of d v)).
Proof.
  unfold create_block, block_of. destruct d as [vs0 bs0 cs0 fs0 es0 args0]. simpl.
  destruct (v_function v) as [f|]; simpl; [|by rewrite app_nil_r].
  destruct (f_is_import f); simpl; [by rewrite app_nil_r | done].
Qed.

Lemma foldl_create_block d vs :
  foldl create_block d vs =
  with_variables_blocks d (variables_blocks d ++ omap (block_of d) vs).
Proof.
  revert d. induction vs as [|v vs IH]; intros d; simpl.
  - rewrite app_nil_r. by destruct d.
  - rewrite IH, create_block_block_of. unfold with_variables_blocks; simpl. f_equal.
    rewrite <- app_assoc. f_equal. fold (with_variables_blocks d (variables_blocks d ++ option_list (block_of d v))).
    destruct (block_of d v) eqn:E; simpl.
    + f_equal.
    + done.
Qed.
(** What [_create_blocks] stores in the block of a variable. *)
Definition block_matches d v b : Prop :=
  b_name b = v_name v ∧
  v_function v = Some (b_function b) ∧
  b_is_function_argument b = v_is_function_argument v ∧
  b_is_function_return_value b = v_is_function_return_value v ∧
  graph_representation_name b = Some (_get_variable_name d b) ∧
  parents_blocks b = [] ∧
  children_blocks b = [] ∧
  tainting_coefficient b = 0%float.

Lemma block_of_matches d d' vs :
  all_functions_arguments d' = all_functions_arguments d →
  Forall2 (block_matches d') (filter analysable vs) (omap (block_of d) vs).
Proof.
  intros Ea. induction vs as [|v vs IH]; simpl; [constructor|].
  rewrite filter_cons. destruct (block_of d v) as [b|] eqn:E.
  - rewrite decide_True by (by eapply block_of_Some). constructor; [|done].
    unfold block_of in E. destruct (v_function v) as [f|] eqn:Ef; [|done].
    destruct (f_is_import f); simplify_eq/=.
    repeat split; try done. simpl. unfold _get_variable_name. by rewrite Ea.
  - rewrite decide_False by (by eapply block_of_None). done.
Qed.

Lemma _create_blocks_blocks vs :
  variables_blocks (_create_blocks (__init__ vs)) = omap (block_of (__init__ vs)) vs.
Proof. unfold _create_blocks. by rewrite foldl_create_block. Qed.

Lemma _create_blocks_matches vs :
  Forall2 (block_matches (_create_blocks (__init__ vs)))
    (filter analysable vs) (variables_blocks (_create_blocks (__init__ vs))).
Proof.
  rewrite _create_blocks_blocks. apply block_of_matches.
  unfold _create_blocks. by rewrite foldl_create_block.
Qed.

Lemma _create_blocks_not_import vs b :
  b ∈ variables_blocks (_create_blocks (__init__ vs)) → f_is_import (b_function b) = false.
Proof.
  intros Hb. apply list_elem_of_lookup in Hb as [i Hb].
  destruct (Forall2_lookup_r _ _ _ _ _ (_create_blocks_matches vs) Hb) as (v & Hv & M).
  apply list_elem_of_lookup_2, list_elem_of_filter in Hv as [(f & Hf & Hi) _].
  destruct M as (_ & Ef & _). by simplify_eq.
Qed.

(** C5: [_create_blocks], run on a fresh graph, builds one Variable Block for
    every variable whose function is non-null and not an import, in the
    order of the input list, and none for the other variables: the blocks
    correspond one to one, in order, to these variables, so that their number
    is the number of these variables, and the function of a block is never
    an import. *)
Theorem _create_blocks_one_per_variable vs :
  Forall2 (block_matches (_create_blocks (__init__ vs)))
    (filter analysable vs) (variables_blocks (_create_blocks (__init__ vs))) ∧
  length (variables_blocks (_create_blocks (__init__ vs))) = length (filter analysable vs) ∧
  Forall (λ b, f_is_import (b_function b) = false)
    (variables_blocks (_create_blocks (__init__ vs))).
Proof.
  split; [apply _create_blocks_matches|].
  split; [symmetry; eapply Forall2_length, _create_blocks_matches|].
  apply Forall_forall, _create_blocks_not_import.
Qed.

(** ** Selecting blocks *)

Lemma elem_of_positions_from {A} (P : A → bool) i (l : list A) j :
  j ∈ positions_from P i l ↔ ∃ x, i ≤ j ∧ l !! (j - i) = Some x ∧ P x = true.
Proof.
  revert i. induction l as [|y l IH]; intros i; simpl.
  - split; [by intros ?%elem_of_nil | by intros (x & _ & ? & _)].
  - rewrite elem_of_app, IH. split.
    + intros [Hj|(x & Hle & Hx & HP)].
      * destruct (P y) eqn:E; [|by apply elem_of_nil in Hj].
        apply list_elem_of_singleton in Hj as ->. exists y.
        by rewrite Nat.sub_diag.
      * exists x. split; [lia|]. split; [|done].
        by replace (j - i) with (S (j - S i)) by lia.
    + intros (x & Hle & Hx & HP). destruct (decide (j = i)) as [->|Hne].
      * left. rewrite Nat.sub_diag in Hx. simplify_eq/=. rewrite HP.
        by apply list_elem_of_singleton.
      * right. exists x. split; [lia|]. split; [|done].
        by replace (j - i) with (S (j - S i)) in Hx by lia.
Qed.

Lemma elem_of_positions {A} (P : A → bool) (l : list A) j :
  j ∈ positions P l ↔ ∃ x, l !! j = Some x ∧ P x = true.
Proof.
  unfold positions. rewrite elem_of_positions_from. rewrite Nat.sub_0_r.
  split; [intros (x & _ & ?); by exists x | intros (x & ?); exists x; split; [lia|done]].
Qed.

Lemma positions_lt {A} (P : A → bool) (l : list A) j : j ∈ positions P l → j < length l.
Proof. intros (x & Hx & _)%elem_of_positions. by eapply lookup_lt_Some. Qed.

Lemma NoDup_positions_from {A} (P : A → bool) i (l : list A) : NoDup (positions_from P i l).
Proof.
  revert i. induction l as [|y l IH]; intros i; simpl; [constructor|].
  destruct (P y); simpl; [|apply IH]. constructor; [|apply IH].
  intros (x & Hle & _)%elem_of_positions_from. lia.
Qed.

Lemma NoDup_positions {A} (P : A → bool) (l : list A) : NoDup (positions P l).
Proof. apply NoDup_positions_from. Qed.

Lemma positions_from_ext {A B} (P : A → bool) (Q : B → bool) i (l : list A) (k : list B) :
  Forall2 (λ x y, P x = Q y) l k → positions_from P i l = positions_from Q i k.
Proof.
  intros F. revert i. induction F as [|x y l k E F IH]; intros i; simpl; [done|].
  by rewrite E, IH.
Qed.

Lemma same_keys_refl bs : same_keys bs bs.
Proof. by apply Forall_Forall2_diag, Forall_true. Qed.

Lemma same_keys_trans bs1 bs2 bs3 : same_keys bs1 bs2 → same_keys bs2 bs3 → same_keys bs1 bs3.
Proof.
  unfold same_keys. intros F1 F2. revert bs3 F2.
  induction F1 as [|b1 b2 l1 l2 [] F1 IH]; intros bs3 F2; inversion F2 as [|? b3 ? l3 []]; subst;
    constructor; [split; congruence | by apply IH].
Qed.

Lemma same_keys_length bs bs' : same_keys bs bs' → length bs' = length bs.
Proof. intros F. symmetry. by eapply Forall2_length. Qed.

Lemma same_keys_alter (f : DFGVariableBlock → DFGVariableBlock) i bs :
  (∀ b, b_name (f b) = b_name b ∧ b_function (f b) = b_function b) →
  same_keys bs (alter f i bs).
Proof.
  intros Hf. unfold same_keys. revert i. induction bs as [|b bs IH]; intros [|i]; simpl;
    constructor; try done; try apply same_keys_refl. apply IH.
Qed.

Lemma same_keys_destination v bs bs' :
  same_keys bs bs' →
  positions (is_destination v) bs' = positions (is_destination v) bs.
Proof.
  intros F. symmetry. apply positions_from_ext.
  eapply Forall2_impl; [exact F|]. intros b b' [En Ef]. unfold is_destination.
  by rewrite En, Ef.
Qed.

Lemma same_keys_source v o bs bs' :
  same_keys bs bs' →
  positions (is_source v o) bs' = positions (is_source v o) bs.
Proof.
  intros F. symmetry. apply positions_from_ext.
  eapply Forall2_impl; [exact F|]. intros b b' [En Ef]. unfold is_source.
  by rewrite En, Ef.
Qed.

(** ** Edges between Variable Blocks *)

Lemma extend_block_nil b : extend_block [] [] b = b.
Proof. destruct b. unfold extend_block. simpl. by rewrite !app_nil_r. Qed.

Lemma extend_block_extend c1 p1 c2 p2 b :
  extend_block c2 p2 (extend_block c1 p1 b) = extend_block (c1 ++ c2) (p1 ++ p2) b.
Proof. unfold extend_block. simpl. by rewrite !app_assoc. Qed.

Lemma add_variable_edge_lookup v dest d src i :
  variables_blocks (add_variable_edge v dest d src) !! i =
  extend_block (if decide (src = i) then [dest] else [])
               (if decide (dest = i) then [src] else []) <$> variables_blocks d !! i.
Proof.
  simpl. rewrite !list_lookup_alter.
  repeat case_decide; subst; try done;
    (destruct (variables_blocks d !! i) as [b|]; simpl; [|done]);
    f_equal; destruct b; unfold extend_block, add_parent, add_child;
    simpl; by rewrite ?app_nil_r.
Qed.

Lemma foldl_add_variable_edge v dest srcs d :
  variables (foldl (add_variable_edge v dest) d srcs) = variables d ∧
  constants_blocks (foldl (add_variable_edge v dest) d srcs) = constants_blocks d ∧
  functions_calls_blocks (foldl (add_variable_edge v dest) d srcs) = functions_calls_blocks d ∧
  all_functions_arguments (foldl (add_variable_edge v dest) d srcs) = all_functions_arguments d ∧
  edges (foldl (add_variable_edge v dest) d srcs) = edges d ++ (variable_edge v dest <$> srcs) ∧
  ∀ i, variables_blocks (foldl (add_variable_edge v dest) d srcs) !! i =
       extend_block ((λ _, dest) <$> filter (λ s, s = i) srcs)
                    (if decide (dest = i) then srcs else []) <$> variables_blocks d !! i.
Proof.
  revert d. induction srcs as [|s srcs IH]; intros d; simpl.
  - repeat split; try done; [by rewrite app_nil_r|]. intros i.
    destruct (variables_blocks d !! i) as [b|]; simpl; [|done].
    case_decide; by rewrite extend_block_nil.
  - destruct (IH (add_variable_edge v dest d s)) as (E1 & E2 & E3 & E4 & E5 & E6).
    rewrite E1, E2, E3, E4, E5. repeat split; try done.
    + simpl. by rewrite <- app_assoc.
    + intros i. rewrite E6, add_variable_edge_lookup.
      destruct (variables_blocks d !! i) as [b|]; simpl; [|done].
      rewrite extend_block_extend, filter_cons. f_equal. f_equal.
      * by case_decide.
      * by case_decide.
Qed.

Lemma lookup_fmap_length {A B} (g : nat → A → B) (l : list A) (k : list B) :
  (∀ i, k !! i = g i <$> l !! i) → length k = length l.
Proof.
  intros E. apply Nat.le_antisymm; apply Nat.nlt_ge; intros Hlt.
  - destruct (lookup_lt_is_Some_2 _ _ Hlt) as [y Hy].
    specialize (E (length l)). rewrite Hy in E. by rewrite lookup_ge_None_2 in E.
  - destruct (lookup_lt_is_Some_2 _ _ Hlt) as [x Hx].
    specialize (E (length k)). rewrite Hx in E. by rewrite lookup_ge_None_2 in E.
Qed.

Lemma foldl_add_variable_edge_length v dest srcs d :
  length (variables_blocks (foldl (add_variable_edge v dest) d srcs))
  = length (variables_blocks d).
Proof.
  destruct (foldl_add_variable_edge v dest srcs d) as (_&_&_&_&_&E).
  by apply lookup_fmap_length in E.
Qed.

Lemma foldl_add_variable_edge_keys v dest srcs d :
  same_keys (variables_blocks d) (variables_blocks (foldl (add_variable_edge v dest) d srcs)).
Proof.
  destruct (foldl_add_variable_edge v dest srcs d) as (_&_&_&_&_&E).
  apply Forall2_same_length_lookup_2; [symmetry; apply foldl_add_variable_edge_length|].
  intros i b b' Hb Hb'. rewrite E, Hb in Hb'. by simplify_eq/=.
Qed.

(** ** Edges from Constant Blocks *)

Lemma constant_value_Ok o : op_value o ≠ ListOf [] → ∃ a, constant_value o = Ok a.
Proof.
  unfold constant_value. destruct (op_value o) as [a|[|a l]]; [by exists a|done|by exists a].
Qed.

Lemma constant_value_Raise o e : constant_value o = Raise e → op_value o = ListOf [].
Proof. unfold constant_value. by destruct (op_value o) as [a|[|a l]]. Qed.

Lemma add_constant_edge_Ok v dest d o a :
  constant_value o = Ok a →
  add_constant_edge v dest d o =
  Ok {| variables := variables d;
        variables_blocks := variables_blocks d;
        constants_blocks :=
          constants_blocks d ++ [constant_block v (length (constants_blocks d)) a];
        functions_calls_blocks := functions_calls_blocks d;
        edges := edges d ++ [constant_edge v dest (length (constants_blocks d))];
        all_functions_arguments := all_functions_arguments d |}.
Proof. unfold add_constant_edge. by intros ->. Qed.

Lemma for_each_add_constant_edge v dest consts d :
  Forall (λ o, op_value o ≠ ListOf []) consts →
  ∃ d' values,
    for_each (add_constant_edge v dest) d consts = Ok d' ∧
    Forall2 (λ o a, constant_value o = Ok a) consts values ∧
    variables d' = variables d ∧
    variables_blocks d' = variables_blocks d ∧
    functions_calls_blocks d' = functions_calls_blocks d ∧
    all_functions_arguments d' = all_functions_arguments d ∧
    constants_blocks d' =
      constants_blocks d ++
      imap (λ k a, constant_block v (length (constants_blocks d) + k) a) values ∧
    edges d' =
      edges d ++
      imap (λ k _, constant_edge v dest (length (constants_blocks d) + k)) values.
Proof.
  intros F. revert d. induction F as [|o consts Ho F IH]; intros d; simpl.
  - exists d, []. simpl. rewrite !app_nil_r. by repeat split.
  - destruct (constant_value_Ok o Ho) as [a Ha].
    rewrite (add_constant_edge_Ok v dest d o a Ha). simpl.
    destruct (IH {| variables := variables d;
        variables_blocks := variables_blocks d;
        constants_blocks :=
          constants_blocks d ++ [constant_block v (length (constants_blocks d)) a];
        functions_calls_blocks := functions_calls_blocks d;
        edges := edges d ++ [constant_edge v dest (length (constants_blocks d))];
        all_functions_arguments := all_functions_arguments d |})
      as (d' & values & R & Fv & E1 & E2 & E3 & E4 & E5 & E6).
    simpl in *. exists d', (a :: values). rewrite R, E1, E2, E3, E4, E5, E6.
    repeat split; try done.
    + by constructor.
    + rewrite <- app_assoc. simpl. rewrite Nat.add_0_r. do 2 f_equal.
      apply imap_ext. intros k x _. simpl. f_equal. rewrite length_app. simpl. lia.
    + rewrite <- app_assoc. simpl. rewrite Nat.add_0_r. do 2 f_equal.
      apply imap_ext. intros k x _. simpl. f_equal. rewrite length_app. simpl. lia.
Qed.

Lemma for_each_add_constant_edge_Raise v dest consts d e :
  for_each (add_constant_edge v dest) d consts = Raise e →
  Exists (λ o, op_value o = ListOf []) consts.
Proof.
  revert d. induction consts as [|o consts IH]; intros d; simpl; [done|].
  destruct (constant_value o) as [a|e'] eqn:Ha.
  - rewrite (add_constant_edge_Ok _ _ _ _ _ Ha). simpl.
    intros R. apply Exists_cons_tl. by eapply IH.
  - intros _. apply Exists_cons_hd. by eapply constant_value_Raise.
Qed.

(** ** One iteration of [_create_edges] *)

Lemma is_source_true v o b :
  is_source v o b = true ↔
  v_function v = Some (b_function b) ∧
  match op_value o with
  | ListOf l => AName (b_name b) ∈ l
  | Scalar _ => b_name b = v_name v
  end.
Proof.
  unfold is_source. destruct (op_value o);
    rewrite andb_true_iff, !bool_decide_eq_true; done.
Qed.

Lemma is_destination_true v b :
  is_destination v b = true ↔ v_function v = Some (b_function b) ∧ v_name v = b_name b.
Proof. unfold is_destination. by rewrite andb_true_iff, !bool_decide_eq_true. Qed.

Lemma is_source_scalar v o a bs :
  op_value o = Scalar a →
  positions (is_source v o) bs = positions (is_destination v) bs.
Proof.
  intros E. apply positions_from_ext, Forall_Forall2_diag, Forall_true. intros b.
  unfold is_source, is_destination. rewrite E. f_equal. apply bool_decide_ext. split; done.
Qed.

Lemma elem_of_parents_variables operation o :
  o ∈ parents_variables operation ↔ EOperand o ∈ operation ∧ op_type o = VARIABLE.
Proof.
  unfold parents_variables, operands. rewrite list_elem_of_filter, list_elem_of_omap. split.
  - intros (Ht & x & Hx & E). destruct x; simplify_eq. done.
  - intros (Ho & Ht). split; [done|]. by exists (EOperand o).
Qed.

Lemma elem_of_parents_constants operation o :
  o ∈ parents_constants operation ↔ EOperand o ∈ operation ∧ op_type o = INTEGER.
Proof.
  unfold parents_constants, operands. rewrite list_elem_of_filter, list_elem_of_omap. split.
  - intros (Ht & x & Hx & E). destruct x; simplify_eq. done.
  - intros (Ho & Ht). split; [done|]. by exists (EOperand o).
Qed.

Lemma source_blocks_lt d v operation s :
  s ∈ source_blocks d v operation → s < length (variables_blocks d).
Proof.
  unfold source_blocks. intros (o & Hs & _)%list_elem_of_bind. by eapply positions_lt.
Qed.

Lemma create_edges_of_expression d v operation dest rest :
  v_value v = Some (Expression operation) →
  positions (is_destination v) (variables_blocks d) = dest :: rest →
  create_edges_of d v =
  for_each (add_constant_edge v dest)
    (foldl (add_variable_edge v dest) d (source_blocks d v operation))
    (parents_constants operation).
Proof. unfold create_edges_of. by intros -> ->. Qed.

Lemma create_edges_of_spec d v operation dest rest :
  v_value v = Some (Expression operation) →
  positions (is_destination v) (variables_blocks d) = dest :: rest →
  Forall (λ o, op_value o ≠ ListOf []) (parents_constants operation) →
  ∃ d' values,
    create_edges_of d v = Ok d' ∧
    Forall2 (λ o a, constant_value o = Ok a) (parents_constants operation) values ∧
    variables d' = variables d ∧
    functions_calls_blocks d' = functions_calls_blocks d ∧
    all_functions_arguments d' = all_functions_arguments d ∧
    (∀ i, variables_blocks d' !! i =
          extend_block ((λ _, dest) <$> filter (λ s, s = i) (source_blocks d v operation))
            (if decide (dest = i) then source_blocks d v operation else [])
          <$> variables_blocks d !! i) ∧
    constants_blocks d' =
      constants_blocks d ++
      imap (λ k a, constant_block v (length (constants_blocks d) + k) a) values ∧
    edges d' =
      edges d ++ (variable_edge v dest <$> source_blocks d v operation) ++
      imap (λ k _, constant_edge v dest (length (constants_blocks d) + k)) values.
Proof.
  intros Hv Hd Hc. rewrite (create_edges_of_expression d v operation dest rest Hv Hd).
  destruct (foldl_add_variable_edge v dest (source_blocks d v operation) d)
    as (E1 & E2 & E3 & E4 & E5 & E6).
  destruct (for_each_add_constant_edge v dest (parents_constants operation)
              (foldl (add_variable_edge v dest) d (source_blocks d v operation)) Hc)
    as (d' & values & R & Fv & F1 & F2 & F3 & F4 & F5 & F6).
  exists d', values. rewrite R, F1, F3, F4, F5, F6, F2, E1, E2, E3, E4, E5.
  repeat split; try done. by rewrite app_assoc.
Qed.

Lemma for_each_add_constant_edge_readable v dest consts d d' :
  for_each (add_constant_edge v dest) d consts = Ok d' →
  Forall (λ o, op_value o ≠ ListOf []) consts.
Proof.
  revert d. induction consts as [|o consts IH]; intros d; simpl; [constructor|].
  destruct (constant_value o) as [a|e] eqn:Ha.
  - rewrite (add_constant_edge_Ok _ _ _ _ _ Ha). simpl. intros R. constructor.
    + intros E. unfold constant_value in Ha. by rewrite E in Ha.
    + by eapply IH.
  - unfold add_constant_edge. by rewrite Ha.
Qed.

(** A successful iteration either skips the variable or is described by
    [create_edges_of_spec]. *)
Lemma create_edges_of_Ok d v d' :
  create_edges_of d v = Ok d' →
  (d' = d ∧ ∀ operation, v_value v ≠ Some (Expression operation)) ∨
  (∃ operation dest rest,
     v_value v = Some (Expression operation) ∧
     positions (is_destination v) (variables_blocks d) = dest :: rest ∧
     Forall (λ o, op_value o ≠ ListOf []) (parents_constants operation)).
Proof.
  unfold create_edges_of. destruct (v_value v) as [[operation|call]|] eqn:Hv.
  - destruct (positions _ _) as [|dest rest] eqn:Hd; [done|].
    intros R. right. exists operation, dest, rest. repeat split; try done.
    by eapply for_each_add_constant_edge_readable.
  - intros; simplify_eq. left. split; [done|]. congruence.
  - intros; simplify_eq. left. split; [done|]. congruence.
Qed.

(** ** The graph after [_create_edges] *)

Lemma edge_children_variable_edges v dest srcs i :
  edge_children i (variable_edge v dest <$> srcs) = (λ _, dest) <$> filter (λ s, s = i) srcs.
Proof.
  unfold edge_children. induction srcs as [|s srcs IH]; csimpl; [done|].
  rewrite filter_cons, IH. by case_decide.
Qed.

Lemma edge_parents_variable_edges v dest srcs i :
  edge_parents i (variable_edge v dest <$> srcs) = if decide (dest = i) then srcs else [].
Proof.
  unfold edge_parents. induction srcs as [|s srcs IH]; csimpl; [by case_decide|].
  rewrite IH. by case_decide.
Qed.

Lemma edge_children_constant_edges {A} v dest (f : nat → nat) (l : list A) i :
  edge_children i (imap (λ k _, constant_edge v dest (f k)) l) = [].
Proof.
  revert f. induction l as [|x l IH]; intros f; simpl; [done|]. apply (IH (f ∘ S)).
Qed.

Lemma edge_parents_constant_edges {A} v dest (f : nat → nat) (l : list A) i :
  edge_parents i (imap (λ k _, constant_edge v dest (f k)) l) = [].
Proof.
  revert f. induction l as [|x l IH]; intros f; simpl; [done|]. apply (IH (f ∘ S)).
Qed.

Lemma constant_ids v n (values : list Atom) :
  c_id <$> imap (λ k a, constant_block v (n + k) a) values = seq n (length values).
Proof.
  revert n. induction values as [|a values IH]; intros n; simpl; [done|].
  rewrite Nat.add_0_r. f_equal. rewrite <- (IH (S n)). f_equal.
  apply imap_ext. intros k x _. simpl. f_equal. lia.
Qed.

Lemma constants_of_operands v n consts (values : list Atom) :
  Forall2 (λ o a, constant_value o = Ok a) consts values →
  Forall2 (λ c vo, c_variable c = vo.1 ∧ c_function c = v_function vo.1 ∧
                   constant_value vo.2 = Ok (c_value c))
    (imap (λ k a, constant_block v (n + k) a) values) ((λ o, (v, o)) <$> consts).
Proof.
  intros F. revert n. induction F as [|o a consts values Ho F IH]; intros n; simpl;
    constructor; [done|].
  eapply Forall2_impl; [|by intros ?? X; exact X].
  rewrite (imap_ext _ (λ k a, constant_block v (S n + k) a)); [apply IH|].
  intros k x _. simpl. unfold constant_block. f_equal. lia.
Qed.

Lemma create_edges_of_keys d v d' :
  create_edges_of d v = Ok d' →
  same_keys (variables_blocks d) (variables_blocks d') ∧ variables d' = variables d.
Proof.
  intros R. destruct (create_edges_of_Ok d v d' R) as [[-> _]|(operation & dest & rest & Hv & Hd & Hc)].
  { split; [apply same_keys_refl | done]. }
  destruct (create_edges_of_spec d v operation dest rest Hv Hd Hc)
    as (d'' & values & R' & _ & E1 & _ & _ & E & _).
  rewrite R in R'. simplify_eq. split; [|done].
  apply Forall2_same_length_lookup_2; [symmetry; exact (lookup_fmap_length _ _ _ E)|].
  intros i b b' Hb Hb'. rewrite E, Hb in Hb'. by simplify_eq/=.
Qed.

Lemma integer_operands_snoc done v :
  integer_operands (done ++ [v]) =
  integer_operands done ++
  match v_value v with
  | Some (Expression operation) => (λ o, (v, o)) <$> parents_constants operation
  | _ => []
  end.
Proof. unfold integer_operands. rewrite bind_app. csimpl. by rewrite app_nil_r. Qed.

Lemma create_edges_of_built d done v d' :
  edges_built d done → create_edges_of d v = Ok d' → edges_built d' (done ++ [v]).
Proof.
  intros (Ireg & Irng & [Icb Iid] & Ied) R.
  pose proof (create_edges_of_keys d v d' R) as [K _].
  destruct (create_edges_of_Ok d v d' R) as [[-> Hv]|(operation & dest & rest & Hv & Hd & Hc)].
  { split; [done|]. split; [done|]. split; [|done]. split; [|done].
    rewrite integer_operands_snoc.
    destruct (v_value v) as [[operation|]|]; rewrite ?app_nil_r; try done.
    by destruct (Hv operation). }
  destruct (create_edges_of_spec d v operation dest rest Hv Hd Hc)
    as (d'' & values & R' & Fv & _ & _ & _ & Eb & Ec & Ee).
  rewrite R in R'. simplify_eq.
  assert (Hlen : length (variables_blocks d'') = length (variables_blocks d))
    by exact (lookup_fmap_length _ _ _ Eb).
  assert (Hdest : dest < length (variables_blocks d)).
  { apply (positions_lt (is_destination v)). rewrite Hd. by left. }
  split; [|split; [|split; [split|]]].
  - intros i b' Hb'. rewrite Eb in Hb'.
    destruct (variables_blocks d !! i) as [b0|] eqn:Hb0; simplify_eq/=.
    destruct (Ireg i b0 Hb0) as [Ech Epa]. rewrite Ee, Ech, Epa.
    unfold edge_children, edge_parents. rewrite !omap_app.
    fold (edge_children i (edges d)) (edge_parents i (edges d)).
    fold (edge_children i (variable_edge v dest <$> source_blocks d v operation)).
    fold (edge_parents i (variable_edge v dest <$> source_blocks d v operation)).
    fold (edge_children i
            (imap (λ k _, constant_edge v dest (length (constants_blocks d) + k)) values)).
    fold (edge_parents i
            (imap (λ k _, constant_edge v dest (length (constants_blocks d) + k)) values)).
    by rewrite edge_children_variable_edges, edge_children_constant_edges,
      edge_parents_variable_edges, edge_parents_constant_edges, !app_nil_r.
  - unfold edges_in_range. rewrite Ee, Ec, Hlen, length_app, length_imap.
    rewrite !Forall_app. repeat split.
    + eapply Forall_impl; [exact Irng|]. intros e [? He]. split; [done|].
      destruct (e_source e); [done|lia].
    + apply Forall_fmap, Forall_forall. intros s Hs. simpl. split; [done|].
      by eapply source_blocks_lt.
    + apply Forall_lookup. intros k e He. rewrite list_lookup_imap in He.
      destruct (values !! k) as [a|] eqn:Ha; simplify_eq/=. split; [done|].
      apply lookup_lt_Some in Ha. lia.
  - rewrite Ec, integer_operands_snoc, Hv. apply Forall2_app; [done|].
    by apply constants_of_operands.
  - rewrite Ec, fmap_app, constant_ids, Iid, length_app, length_imap.
    by rewrite seq_app.
  - intros k c Hk. rewrite Ec in Hk. apply lookup_app_Some in Hk as [Hk|[Hge Hk]].
    + destruct (Ied k c Hk) as (dest' & rest' & Hp & Hin). exists dest', rest'.
      rewrite (same_keys_destination _ _ _ K). split; [done|].
      rewrite Ee. apply elem_of_app. by left.
    + rewrite list_lookup_imap in Hk.
      destruct (values !! (k - length (constants_blocks d))) as [a|] eqn:Ha; simplify_eq/=.
      exists dest, rest. rewrite (same_keys_destination _ _ _ K). split; [done|].
      rewrite Ee, !elem_of_app. right. right.
      apply list_elem_of_lookup. exists (k - length (constants_blocks d)).
      rewrite list_lookup_imap, Ha. simpl. do 2 f_equal. lia.
Qed.

Lemma for_each_create_edges_of_built vs d done d' :
  edges_built d done → for_each create_edges_of d vs = Ok d' →
  edges_built d' (done ++ vs) ∧
  same_keys (variables_blocks d) (variables_blocks d') ∧ variables d' = variables d.
Proof.
  revert d done. induction vs as [|v vs IH]; intros d done I; simpl.
  - intros; simplify_eq. rewrite app_nil_r. split; [done|]. split; [apply same_keys_refl|done].
  - destruct (create_edges_of d v) as [d1|e] eqn:R; simpl; [|done]. intros R'.
    destruct (create_edges_of_keys d v d1 R) as [K1 V1].
    destruct (IH d1 (done ++ [v]) (create_edges_of_built _ _ _ _ I R) R') as (I' & K' & V').
    rewrite <- app_assoc in I'. split; [done|]. split; [by eapply same_keys_trans|congruence].
Qed.

(** ** The whole construction *)

Lemma foldl_create_function_call vs d :
  variables (foldl create_function_call d vs) = variables d ∧
  variables_blocks (foldl create_function_call d vs) = variables_blocks d ∧
  constants_blocks (foldl create_function_call d vs) = constants_blocks d ∧
  edges (foldl create_function_call d vs) = edges d ∧
  all_functions_arguments (foldl create_function_call d vs) = all_functions_arguments d.
Proof.
  revert d. induction vs as [|v vs IH]; intros d; simpl; [done|].
  destruct (IH (create_function_call d v)) as (-> & -> & -> & -> & ->).
  unfold create_function_call. by destruct (v_value v) as [[|]|].
Qed.

Lemma blocks_created_fields vs :
  variables (blocks_created vs) = vs ∧
  variables_blocks (blocks_created vs) = variables_blocks (_create_blocks (__init__ vs)) ∧
  constants_blocks (blocks_created vs) = [] ∧
  edges (blocks_created vs) = [].
Proof.
  unfold blocks_created, _create_functions_calls.
  destruct (foldl_create_function_call (variables (_create_blocks (__init__ vs)))
              (_create_blocks (__init__ vs))) as (-> & -> & -> & -> & _).
  unfold _create_blocks. by rewrite foldl_create_block.
Qed.

Lemma blocks_created_built vs : edges_built (blocks_created vs) [].
Proof.
  destruct (blocks_created_fields vs) as (Ev & Eb & Ec & Ee).
  split; [|split; [|split]].
  - intros i b Hb. rewrite Ee. rewrite Eb in Hb.
    destruct (Forall2_lookup_r _ _ _ _ _ (_create_blocks_matches vs) Hb) as (v & _ & M).
    destruct M as (_&_&_&_&_& -> & -> &_). done.
  - unfold edges_in_range. rewrite Ee. constructor.
  - rewrite Ec. split; [constructor|done].
  - intros k c Hk. by rewrite Ec in Hk.
Qed.

Lemma _create_dfg_built vs d :
  _create_dfg (__init__ vs) = Ok d →
  edges_built d vs ∧
  same_keys (variables_blocks (_create_blocks (__init__ vs))) (variables_blocks d) ∧
  variables d = vs.
Proof.
  unfold _create_dfg, _create_edges. fold (blocks_created vs).
  destruct (blocks_created_fields vs) as (Ev & Eb & _). rewrite Ev. intros R.
  destruct (for_each_create_edges_of_built vs _ [] d (blocks_created_built vs) R)
    as (I & K & V).
  rewrite Eb in K. split; [done|]. split; [done|]. congruence.
Qed.

Lemma edges_built_wf d done : edges_built d done → wf_blocks (variables_blocks d).
Proof.
  intros (Ireg & Irng & _). apply Forall_lookup. intros i b Hb.
  rewrite (proj1 (Ireg i b Hb)). apply Forall_forall. intros c Hc.
  unfold edge_children in Hc. apply list_elem_of_omap in Hc as (e & He & Hc).
  unfold edges_in_range in Irng. rewrite Forall_forall in Irng.
  destruct (Irng e He) as [Hd _].
  destruct (e_source e); [|done]. by case_decide; simplify_eq.
Qed.

Lemma edges_built_parents d done i b p :
  edges_built d done → variables_blocks d !! i = Some b → p ∈ parents_blocks b →
  p < length (variables_blocks d).
Proof.
  intros (Ireg & Irng & _) Hb Hp. rewrite (proj2 (Ireg i b Hb)) in Hp.
  unfold edge_parents in Hp. apply list_elem_of_omap in Hp as (e & He & Hp).
  unfold edges_in_range in Irng. rewrite Forall_forall in Irng.
  destruct (Irng e He) as [_ Hs].
  destruct (e_source e); [|done]. by case_decide; simplify_eq.
Qed.

(** ** Failure of [_create_edges] *)

Lemma exception_only (e : exception) : e = IndexError.
Proof. by destruct e. Qed.

Lemma create_edges_of_Raise d v e :
  constants_readable v → create_edges_of d v = Raise e →
  ∃ operation, v_value v = Some (Expression operation) ∧
    positions (is_destination v) (variables_blocks d) = [].
Proof.
  unfold constants_readable, create_edges_of.
  destruct (v_value v) as [[operation|]|]; try done. intros Hc.
  destruct (positions _ _) as [|dest rest] eqn:Hd; [by exists operation|].
  intros R. apply for_each_add_constant_edge_Raise in R.
  apply Exists_exists in R as (o & Ho & Hempty).
  rewrite Forall_forall in Hc. by destruct (Hc o Ho).
Qed.

Lemma for_each_create_edges_of_Raise vs d :
  Forall constants_readable vs →
  for_each create_edges_of d vs = Raise IndexError ↔
  ∃ v operation, v ∈ vs ∧ v_value v = Some (Expression operation) ∧
    positions (is_destination v) (variables_blocks d) = [].
Proof.
  intros Hc. revert d. induction Hc as [|v vs Hv Hc IH]; intros d; simpl.
  { split; [done|]. by intros (v & ? & ?%elem_of_nil & _). }
  destruct (create_edges_of d v) as [d1|e] eqn:R; simpl.
  - destruct (create_edges_of_keys d v d1 R) as [K _]. rewrite IH. split.
    + intros (v' & operation & Hin & Hv' & Hp). exists v', operation.
      rewrite <- (same_keys_destination _ _ _ K). split; [by right|done].
    + intros (v' & operation & Hin & Hv' & Hp). exists v', operation.
      rewrite (same_keys_destination _ _ _ K). split; [|done].
      apply elem_of_cons in Hin as [->|Hin]; [|done].
      destruct (create_edges_of_Ok d v d1 R) as [[_ Hno]|(op & dest & rest & _ & Hd & _)].
      * by destruct (Hno operation).
      * by rewrite Hd in Hp.
  - split; [|by rewrite (exception_only e)]. intros _.
    destruct (create_edges_of_Raise d v e Hv R) as (operation & Hv' & Hp).
    exists v, operation. split; [by left|done].
Qed.

Lemma _create_blocks_destination vs v :
  positions (is_destination v) (variables_blocks (_create_blocks (__init__ vs))) = [] →
  v ∈ vs → ¬ analysable v.
Proof.
  intros Hp Hin Ha.
  assert (Hf : v ∈ filter analysable vs) by (by apply list_elem_of_filter).
  apply list_elem_of_lookup in Hf as [i Hi].
  destruct (Forall2_lookup_l _ _ _ _ _ (_create_blocks_matches vs) Hi) as (b & Hb & M).
  assert (Hpos : i ∈ positions (is_destination v)
                       (variables_blocks (_create_blocks (__init__ vs)))).
  { apply elem_of_positions. exists b. split; [done|].
    apply is_destination_true. by destruct M as (-> & -> & _). }
  rewrite Hp in Hpos. by apply elem_of_nil in Hpos.
Qed.

Lemma _create_blocks_no_destination vs v :
  ¬ analysable v →
  positions (is_destination v) (variables_blocks (_create_blocks (__init__ vs))) = [].
Proof.
  intros Hna. destruct (positions _ _) as [|i rest] eqn:Hp; [done|]. exfalso.
  assert (Hi : i ∈ positions (is_destination v)
                     (variables_blocks (_create_blocks (__init__ vs))))
    by (rewrite Hp; by left).
  apply elem_of_positions in Hi as (b & Hb & [Hf _]%is_destination_true).
  apply Hna. exists (b_function b). split; [done|].
  by eapply _create_blocks_not_import, list_elem_of_lookup_2.
Qed.

(** ** The claims on the construction of edges *)

Lemma constant_value_iff o a :
  constant_value o = Ok a ↔ op_value o = Scalar a ∨ ∃ l, op_value o = ListOf (a :: l).
Proof.
  unfold constant_value. destruct (op_value o) as [a'|[|a' l]]; split.
  - intros; simplify_eq. by left.
  - intros [?|[l ?]]; by simplify_eq.
  - done.
  - intros [?|[l ?]]; by simplify_eq.
  - intros; simplify_eq. right. by exists l.
  - intros [?|[l' ?]]; by simplify_eq.
Qed.


Lemma integer_operands_typed vs : integer_operands vs = integer_typed_operands vs.
Proof.
  unfold integer_operands, integer_typed_operands.
  induction vs as [|v vs IH]; [done|]. rewrite !bind_cons, IH. f_equal.
  destruct (v_value v) as [[operation|]|]; try done.
  unfold parents_constants, operands. induction operation as [|e operation IHo]; [done|].
  destruct e as [o|s]; csimpl; [|done].
  destruct (op_type o) eqn:T.
  - rewrite filter_cons_False by (rewrite T; done). done.
  - rewrite filter_cons_True by done. csimpl. by f_equal.
Qed.

(** C6: whenever [_create_dfg] succeeds, [constants_blocks] holds one
    Constant Block for every integer-typed operand of a non-call value
    ([integer_typed_operands]: the operands of type INTEGER among the
    elements of each direct expression), in order and without merging equal
    literals; the block carries the scalar payload, or the first element of a
    list payload, the variable and its function; its id is its position, the
    number of Constant Blocks created before it, so ids are pairwise
    distinct; and its edge to the destination block of the variable is in
    [edges].  One step appends the block with id [len(constants_blocks)] and
    its edge. *)
Theorem _create_edges_constant_operands vs d :
  _create_dfg (__init__ vs) = Ok d →
  Forall2 (λ c vo, c_variable c = vo.1 ∧ c_function c = v_function vo.1 ∧
                   (op_value vo.2 = Scalar (c_value c) ∨
                    ∃ l, op_value vo.2 = ListOf (c_value c :: l)))
    (constants_blocks d) (integer_typed_operands vs) ∧
  length (constants_blocks d) = length (integer_typed_operands vs) ∧
  (∀ k c, constants_blocks d !! k = Some c → c_id c = k) ∧
  NoDup (c_id <$> constants_blocks d) ∧
  (∀ k c, constants_blocks d !! k = Some c →
     ∃ destination_block rest,
       positions (is_destination (c_variable c)) (variables_blocks d)
         = destination_block :: rest ∧
       {| e_source := ConstantRef k;
          e_destination := destination_block;
          e_function := v_function (c_variable c) |} ∈ edges d) ∧
  (∀ d0 v destination_block parent_constant value,
     constant_value parent_constant = Ok value →
     ∃ d1, add_constant_edge v destination_block d0 parent_constant = Ok d1 ∧
       variables_blocks d1 = variables_blocks d0 ∧
       constants_blocks d1 =
         constants_blocks d0 ++
         [{| c_value := value; c_id := length (constants_blocks d0);
             c_variable := v; c_function := v_function v |}] ∧
       edges d1 =
         edges d0 ++
         [{| e_source := ConstantRef (length (constants_blocks d0));
             e_destination := destination_block;
             e_function := v_function v |}]).
Proof.
  intros R. destruct (_create_dfg_built vs d R) as ((_ & _ & [Icb Iid] & Ied) & _ & _).
  rewrite integer_operands_typed in Icb.
  split; [|split; [|split; [|split; [|split]]]].
  - eapply Forall2_impl; [exact Icb|]. intros c vo (? & ? & ?%constant_value_iff). done.
  - by eapply Forall2_length.
  - intros k c Hk. apply (f_equal (.!! k)) in Iid.
    rewrite list_lookup_fmap, Hk in Iid. simpl in Iid.
    rewrite lookup_seq_lt in Iid by (by eapply lookup_lt_Some). by simplify_eq.
  - rewrite Iid. apply NoDup_seq.
  - intros k c Hk. destruct (Ied k c Hk) as (dest & rest & Hp & Hin). by exists dest, rest.
  - intros d0 v dest o a Ha. eexists. split; [by apply add_constant_edge_Ok|done].
Qed.

(** C7 (amended): when no integer-typed operand carries an empty list,
    [_create_edges] raises [IndexError] exactly when some variable with a
    non-null, non-call value has no Variable Block with its function and
    name.  After [_create_blocks] on the same variables, such a variable has
    its block if its function is non-null and not an import, so [_create_dfg]
    raises exactly when some variable with a non-null, non-call value has no
    function or an imported one. *)
Theorem _create_edges_missing_destination vs :
  Forall constants_readable vs →
  (∀ d, variables d = vs →
     _create_edges d = Raise IndexError ↔
     ∃ v operation, v ∈ vs ∧ v_value v = Some (Expression operation) ∧
       positions (is_destination v) (variables_blocks d) = []) ∧
  (∀ v, v ∈ vs → analysable v →
     positions (is_destination v) (variables_blocks (blocks_created vs)) ≠ []) ∧
  (_create_dfg (__init__ vs) = Raise IndexError ↔
   ∃ v operation, v ∈ vs ∧ v_value v = Some (Expression operation) ∧ ¬ analysable v).
Proof.
  intros Hc. destruct (blocks_created_fields vs) as (Ev & Eb & _).
  split; [|split].
  - intros d <-. unfold _create_edges. by apply for_each_create_edges_of_Raise.
  - intros v Hin Ha Hp. rewrite Eb in Hp. by apply (_create_blocks_destination vs v Hp Hin).
  - unfold _create_dfg, _create_edges. fold (blocks_created vs). rewrite Ev.
    rewrite (for_each_create_edges_of_Raise vs _ Hc), Eb. split.
    + intros (v & operation & Hin & Hv & Hp). exists v, operation.
      split; [done|]. split; [done|]. by apply (_create_blocks_destination vs v Hp Hin).
    + intros (v & operation & Hin & Hv & Hna). exists v, operation.
      split; [done|]. split; [done|]. by apply _create_blocks_no_destination.
Qed.

Lemma taint_step_tainted st st' :
  wf_state st → Forall (λ q, q < length (blocks st)) (tainted_blocks st) →
  taint_step st = Some st' →
  Forall (λ q, q < length (blocks st')) (tainted_blocks st').
Proof.
  intros [_ Q] T S1. pose proof (taint_step_structure _ _ S1) as E.
  rewrite (same_structure_length _ _ E).
  unfold taint_step in S1. destruct (blocks_to_taint st) as [|h rest]; simplify_eq/=.
  apply Forall_cons in Q as [Hh _]. apply Forall_app. split; [done|]. by apply Forall_singleton.
Qed.

Lemma taint_steps_in_range st st' :
  wf_state st → Forall (λ q, q < length (blocks st)) (tainted_blocks st) →
  taint_steps st st' →
  length (blocks st') = length (blocks st) ∧
  Forall (λ q, q < length (blocks st')) (blocks_to_taint st' ++ tainted_blocks st').
Proof.
  intros W T R. induction R as [st|st1 st2 st3 S1 _ IH].
  - split; [done|]. apply Forall_app. by destruct W.
  - destruct IH as [El F]; [by eapply taint_step_wf|by eapply taint_step_tainted|].
    split; [|done]. rewrite El. apply same_structure_length. by apply taint_step_structure.
Qed.

(** C10: whenever [_create_dfg] succeeds, every element of a
    [children_blocks] or [parents_blocks] list is a block of
    [variables_blocks], and these lists are exactly what the edges with a
    Variable Block as source record; the edge of every Constant Block is in
    [edges] but registers in none of these lists.  Hence the loop of
    [_taint_variable] only ever queues and visits Variable Blocks, and the
    taint operations, which all return, leave [constants_blocks] and [edges] as
    they are. *)
Theorem _create_dfg_relations vs d :
  _create_dfg (__init__ vs) = Ok d →
  (∀ i b, variables_blocks d !! i = Some b →
     Forall (λ c, c < length (variables_blocks d)) (children_blocks b) ∧
     Forall (λ p, p < length (variables_blocks d)) (parents_blocks b) ∧
     children_blocks b = edge_children i (edges d) ∧
     parents_blocks b = edge_parents i (edges d)) ∧
  (∀ k c, constants_blocks d !! k = Some c →
     ∃ e, e ∈ edges d ∧ e_source e = ConstantRef k) ∧
  (∀ source st, source < length (variables_blocks d) →
     taint_steps (taint_start source (variables_blocks d)) st →
     Forall (λ q, q < length (variables_blocks d))
       (blocks_to_taint st ++ tainted_blocks st)) ∧
  (∀ ops, Forall (valid_operation (length (variables_blocks d))) ops →
     (∃ fuel d', run_operations fuel d ops = Some d') ∧
     ∀ fuel d', run_operations fuel d ops = Some d' →
       constants_blocks d' = constants_blocks d ∧ edges d' = edges d).
Proof.
  intros R. destruct (_create_dfg_built vs d R) as (I & _ & _).
  pose proof (edges_built_wf d vs I) as W.
  split; [|split; [|split]].
  - intros i b Hb. destruct I as (Ireg & ?). destruct (Ireg i b Hb) as [Ec Ep].
    split; [|split; [|done]].
    + by apply (Forall_lookup_1 _ _ _ _ W Hb).
    + apply Forall_forall. intros p Hp. eapply edges_built_parents; [|exact Hb|exact Hp].
      by split.
  - intros k c Hk. destruct I as (_ & _ & _ & Ied).
    destruct (Ied k c Hk) as (dest & rest & _ & Hin). by eexists.
  - intros source st Hs Rst.
    destruct (taint_steps_in_range _ _ (taint_start_wf source _ W Hs) (Forall_nil_2 _) Rst)
      as [El F].
    simpl in El. rewrite length_alter in El. by rewrite <- El.
  - intros ops V. split; [by apply run_operations_terminates|].
    intros fuel d' Rops. by destruct (run_operations_frame _ _ _ _ Rops) as (_ & ? & _ & ? & _).
Qed.



(** * Further properties *)

(** ** What [_taint_variable] reaches and writes *)

Lemma decay_iter j k :
  Nat.iter j (PrimFloat.mul PROPAGATION_COEFFICIENT) (decay k) = decay (j + k).
Proof. unfold decay. by rewrite Nat.iter_add. Qed.

Lemma taint_start_invariant bs source :
  wf_blocks bs → source < length bs → taint_invariant bs source (taint_start source bs).
Proof.
  intros W Hs. split; [by apply taint_start_wf|]. split; [apply same_structure_alter|].
  split; [simpl; by left|]. split; [|split; [|done]].
  - simpl. intros q Hq. apply list_elem_of_singleton in Hq as ->. split; [apply rtc_refl|].
    exists 0. split; [|done].
    rewrite (coefficient_alter 1 source source), decide_True by done.
    unfold coefficient. by destruct (lookup_lt_is_Some_2 _ _ Hs) as [b ->].
  - simpl. by intros x c ?%elem_of_nil.
Qed.

Lemma taint_step_invariant bs source st st' :
  taint_invariant bs source st → taint_step st = Some st' → taint_invariant bs source st'.
Proof.
  intros (W & E & Hsrc & Hq & Hcl & Hfr) S1.
  destruct (blocks_to_taint st) as [|h rest] eqn:Q;
    [by unfold taint_step in S1; rewrite Q in S1|].
  assert (Hh : h < length (blocks st)).
  { destruct W as [_ F]. rewrite Q in F. by apply Forall_cons in F as [? _]. }
  destruct (lookup_lt_is_Some_2 _ _ Hh) as [p Hp].
  destruct (taint_step_spec st h rest p W Q Hp) as (st1 & S1' & ET & EQ & Hother & Hch).
  rewrite S1 in S1'. simplify_eq.
  assert (Ech : children_blocks p = children_of bs h).
  { rewrite <- (same_structure_children _ _ h E). unfold children_of. by rewrite Hp. }
  assert (Hold : ∀ q, q ∈ (h :: rest) ++ tainted_blocks st →
                      q = h ∨ q ∈ rest ∨ q ∈ tainted_blocks st).
  { intros q. rewrite elem_of_app, elem_of_cons. tauto. }
  assert (Hnew : ∀ q, q = h ∨ q ∈ rest ∨ q ∈ tainted_blocks st →
                      q ∈ (rest ++ filter (λ c, c ∉ tainted_blocks st ++ [h]) (children_blocks p))
                          ++ tainted_blocks st ++ [h]).
  { intros q. rewrite !elem_of_app, list_elem_of_singleton. tauto. }
  destruct (Hq h) as (Rh & kh & Ekh & _); [by left|].
  assert (Ekp : tainting_coefficient p = decay kh).
  { unfold coefficient in Ekh. rewrite Hp in Ekh. by simplify_eq/=. }
  split; [by eapply taint_step_wf|].
  split; [eapply same_structure_trans; [exact E|by apply taint_step_structure]|].
  rewrite EQ, ET. split; [|split; [|split]].
  - by apply Hnew, Hold.
  - intros q Hin. destruct (decide (q ∈ children_blocks p)) as [Hc|Hn].
    + split.
      * eapply rtc_r; [exact Rh|]. unfold child_of. by rewrite <- Ech.
      * destruct (Hch q Hc) as (j & Ej & _). exists (S (j + kh)). split; [|lia].
        by rewrite Ej, Ekp, decay_iter.
    + assert (Hin' : q ∈ (h :: rest) ++ tainted_blocks st).
      { rewrite !elem_of_app, list_elem_of_filter, list_elem_of_singleton in Hin.
        rewrite elem_of_app, elem_of_cons. tauto. }
      destruct (Hq q Hin') as (Rq & k & Ek & Hk). split; [done|]. exists k.
      split; [|done]. unfold coefficient. rewrite (Hother q Hn). exact Ek.
  - intros x c Hx Hc. apply elem_of_app in Hx as [Hx|Hx].
    + by apply Hnew, Hold, (Hcl x c).
    + apply list_elem_of_singleton in Hx as ->.
      destruct (decide (c ∈ tainted_blocks st ++ [h])) as [?|Hn]; [apply elem_of_app; by right|].
      rewrite !elem_of_app. left. right. apply list_elem_of_filter. split; [done|].
      by rewrite Ech.
  - intros i Hi. rewrite <- (Hfr i Hi). apply Hother. rewrite Ech. by apply Hi.
Qed.

Lemma taint_steps_invariant bs source st :
  wf_blocks bs → source < length bs →
  taint_steps (taint_start source bs) st → taint_invariant bs source st.
Proof.
  intros W Hs R. unfold taint_steps in R.
  revert st R. apply (rtc_ind_r (taint_invariant bs source) (taint_start source bs)).
  - by apply taint_start_invariant.
  - intros st1 st2 _ S1 IH. by eapply taint_step_invariant.
Qed.

Lemma taint_invariant_closed bs source st i :
  taint_invariant bs source st → blocks_to_taint st = [] →
  reachable bs source i → i ∈ tainted_blocks st.
Proof.
  intros (_ & _ & Hsrc & _ & Hcl & _) Q R. rewrite Q in *. simpl in *.
  unfold reachable in R. revert i R.
  apply (rtc_ind_r (λ i, i ∈ tainted_blocks st) source); [done|].
  intros x y _ Hxy IH. by apply (Hcl x y IH).
Qed.


Lemma _taint_variable_run_invariant bs source :
  wf_blocks bs → source < length bs →
  ∃ fuel st, _taint_variable_run fuel source bs = Some st ∧
    blocks_to_taint st = [] ∧ taint_invariant bs source st.
Proof.
  intros W Hs. destruct (_taint_variable_run_terminates source bs W Hs) as (fuel & st & R).
  exists fuel, st. split; [done|]. split; [by eapply taint_loop_final|].
  apply taint_steps_invariant; [done..|]. by apply (taint_loop_steps fuel).
Qed.

(** X1: on a well-formed block list the loop of [_taint_variable] ends, and
    the blocks it has visited ([tainted_blocks]) are exactly the blocks that
    can be reached from the source block along [children_blocks]: every
    reachable block is visited, and no other block is. *)
Theorem _taint_variable_visits_reachable bs source :
  wf_blocks bs → source < length bs →
  ∃ fuel st, _taint_variable_run fuel source bs = Some st ∧
    ∀ i, i ∈ tainted_blocks st ↔ reachable bs source i.
Proof.
  intros W Hs. destruct (_taint_variable_run_invariant bs source W Hs) as (fuel & st & R & Q & I).
  exists fuel, st. split; [done|]. intros i. split.
  - intros Hi. destruct I as (_ & _ & _ & Hq & _). rewrite Q in Hq. by apply (Hq i).
  - by apply (taint_invariant_closed bs source st).
Qed.

Lemma reachable_child bs source p i :
  reachable bs source p → i ∈ children_of bs p → reachable bs source i.
Proof. intros R Hc. by eapply rtc_r. Qed.

Lemma _taint_variable_cases bs source :
  wf_blocks bs → source < length bs →
  ∃ fuel bs', _taint_variable fuel source bs = Some bs' ∧
    ∀ i, (reachable bs source i ∧
            ∃ k, coefficient bs' i = Some (decay k) ∧ (i ≠ source → 1 ≤ k)) ∨
         (¬ reachable bs source i ∧ bs' !! i = bs !! i).
Proof.
  intros W Hs. destruct (_taint_variable_run_invariant bs source W Hs) as (fuel & st & R & Q & I).
  exists fuel, (blocks st). unfold _taint_variable. rewrite R. split; [done|].
  intros i. destruct (decide (i ∈ tainted_blocks st)) as [Hi|Hi].
  - left. destruct I as (_ & _ & _ & Hq & _). rewrite Q in Hq. by apply (Hq i).
  - right. assert (Hn : ¬ reachable bs source i).
    { intros Ri. by apply Hi, (taint_invariant_closed bs source st). }
    split; [done|]. destruct I as (_ & _ & _ & _ & _ & Hfr). rewrite Hfr.
    + simpl. apply list_lookup_alter_ne. intros ->. apply Hn, rtc_refl.
    + intros p Rp Hc. by apply Hn, (reachable_child bs source p).
Qed.

(** X2: after [_taint_variable source] every block reachable from the
    source holds a coefficient of the form [0.7 * (0.7 * ... * 1)] (the
    product is taken [k] times, with [k >= 1] for every block but the
    source), and every block that is not reachable is left exactly as it
    was, coefficient included. *)
Theorem _taint_variable_coefficients bs source :
  wf_blocks bs → source < length bs →
  ∃ fuel bs', _taint_variable fuel source bs = Some bs' ∧
    ∀ i, (reachable bs source i →
            ∃ k, coefficient bs' i = Some (decay k) ∧ (i ≠ source → 1 ≤ k)) ∧
         (¬ reachable bs source i → bs' !! i = bs !! i).
Proof.
  intros W Hs. destruct (_taint_variable_cases bs source W Hs) as (fuel & bs' & R & Hi).
  exists fuel, bs'. split; [done|]. intros i.
  destruct (Hi i) as [[Ri Hk]|[Hn Eq]]; split; try done.
Qed.

(** X3: when the source block is not a child of any block reachable from it
    (it lies on no cycle), [_taint_variable] leaves it at coefficient [1]. *)
Theorem _taint_variable_source_kept bs source :
  wf_blocks bs → source < length bs →
  (∀ p, reachable bs source p → source ∉ children_of bs p) →
  ∃ fuel bs', _taint_variable fuel source bs = Some bs' ∧
    coefficient bs' source = Some 1%float.
Proof.
  intros W Hs Hno.
  destruct (_taint_variable_run_invariant bs source W Hs) as (fuel & st & R & Q & I).
  exists fuel, (blocks st). unfold _taint_variable. rewrite R. split; [done|].
  destruct I as (_ & _ & _ & _ & _ & Hfr). unfold coefficient. rewrite (Hfr source Hno).
  fold (coefficient (blocks (taint_start source bs)) source). unfold taint_start. cbn [blocks].
  rewrite (coefficient_alter 1 source source), decide_True by done.
  unfold coefficient. by destruct (lookup_lt_is_Some_2 _ _ Hs) as [b ->].
Qed.

(** ** The coefficient a visit writes, and the source on a cycle *)

Lemma self_decays_no_self parent c cs : parent ∉ cs → self_decays parent c cs = 0.
Proof.
  induction cs as [|x cs IH]; [done|]. intros [Hx Hcs]%not_elem_of_cons. simpl.
  case_decide; [|done]. rewrite decide_False by done. by rewrite IH.
Qed.

Lemma foldl_taint_child_exact parent cs bs k :
  coefficient bs parent = Some k →
  Forall (λ c, c < length bs) cs →
  ∀ c, c ∈ cs →
    coefficient (foldl (taint_child parent) bs cs) c
    = Some (PROPAGATION_COEFFICIENT *
            Nat.iter (self_decays parent c cs) (PrimFloat.mul PROPAGATION_COEFFICIENT) k)%float.
Proof.
  revert bs k. induction cs as [|c0 cs IH]; intros bs k Hk Hcs c Hc.
  { by apply elem_of_nil in Hc. }
  cbn [foldl self_decays].
  apply Forall_cons in Hcs as [Hc0 Hcs].
  set (bs1 := taint_child parent bs c0).
  assert (E1 : bs1 = alter (set_coefficient (PROPAGATION_COEFFICIENT * k)) c0 bs).
  { unfold bs1, taint_child. unfold coefficient in Hk.
    destruct (bs !! parent); simplify_eq/=. done. }
  assert (Hk1 : coefficient bs1 parent
                = Some (if decide (c0 = parent) then (PROPAGATION_COEFFICIENT * k)%float else k)).
  { rewrite E1, coefficient_alter. case_decide; [by rewrite Hk|done]. }
  assert (Hcs1 : Forall (λ c, c < length bs1) cs).
  { unfold bs1. by rewrite taint_child_length. }
  destruct (decide (c ∈ cs)) as [Hin|Hout].
  - rewrite (IH bs1 _ Hk1 Hcs1 c Hin).
    destruct (decide (c0 = parent)); [|done].
    by rewrite Nat.add_1_l, Nat.iter_succ_r.
  - apply elem_of_cons in Hc as [->|Hc]; [|done].
    cbn [Nat.iter].
    destruct (foldl_taint_child_spec parent cs bs1 _ Hk1 Hcs1) as [Hout' _].
    unfold coefficient. rewrite Hout' by done.
    fold (coefficient bs1 c0). rewrite E1, coefficient_alter, decide_True by done.
    unfold coefficient. destruct (lookup_lt_is_Some_2 bs c0 Hc0) as [b0 ->]. done.
Qed.

Lemma taint_step_exact st head rest p st' :
  wf_state st →
  blocks_to_taint st = head :: rest →
  blocks st !! head = Some p →
  taint_step st = Some st' →
  ∀ c, c ∈ children_blocks p →
    coefficient (blocks st') c
    = Some (PROPAGATION_COEFFICIENT *
            Nat.iter (self_decays head c (children_blocks p))
              (PrimFloat.mul PROPAGATION_COEFFICIENT) (tainting_coefficient p))%float.
Proof.
  intros [W Q] HQ Hp S1 c Hc. unfold taint_step in S1. rewrite HQ in S1. simplify_eq/=.
  assert (Hch : children_of (blocks st) head = children_blocks p).
  { unfold children_of. by rewrite Hp. }
  unfold taint_children_blocks. rewrite Hch.
  apply foldl_taint_child_exact; [|  |done].
  - unfold coefficient. by rewrite Hp.
  - apply Forall_forall. intros c' Hc'. apply (wf_blocks_children _ head c' W). by rewrite Hch.
Qed.

(** Once a visit has written the source as a child, the source holds a
    coefficient with at least one factor [0.7]. *)
Lemma taint_steps_source_decayed bs source st :
  wf_blocks bs → source < length bs →
  taint_steps (taint_start source bs) st →
  ∀ p, p ∈ tainted_blocks st → source ∈ children_of bs p →
    ∃ k, coefficient (blocks st) source = Some (decay (S k)).
Proof.
  intros W Hs R. unfold taint_steps in R. revert st R.
  apply (rtc_ind_r (λ st, ∀ p, p ∈ tainted_blocks st → source ∈ children_of bs p →
                       ∃ k, coefficient (blocks st) source = Some (decay (S k)))
           (taint_start source bs)).
  { simpl. by intros p ?%elem_of_nil. }
  intros st1 st2 R S1 IH p Hp Hc.
  pose proof (taint_steps_invariant bs source st1 W Hs R) as (Wst & E & _ & Hq & _).
  destruct (blocks_to_taint st1) as [|head rest] eqn:Q.
  { unfold taint_step in S1. by rewrite Q in S1. }
  assert (Hh : head < length (blocks st1)).
  { destruct Wst as [_ F]. rewrite Q in F. by apply Forall_cons in F as [? _]. }
  destruct (lookup_lt_is_Some_2 _ _ Hh) as [ph Hph].
  assert (Hch : children_of bs head = children_blocks ph).
  { rewrite <- (same_structure_children _ _ head E). unfold children_of. by rewrite Hph. }
  destruct (taint_step_spec st1 head rest ph Wst Q Hph) as (st2' & S1' & Et & _ & Hout & Hin).
  rewrite S1 in S1'. injection S1' as <-.
  destruct (decide (source ∈ children_blocks ph)) as [Hsrc|Hsrc].
  - destruct (Hin source Hsrc) as (j & Hj & _).
    destruct (Hq head) as (_ & kh & Hkh & _); [apply list_elem_of_here|].
    unfold coefficient in Hkh. rewrite Hph in Hkh. simpl in Hkh. injection Hkh as Hkh.
    exists (j + kh). rewrite Hj, Hkh, decay_iter. done.
  - unfold coefficient. rewrite (Hout source Hsrc). apply (IH p); [|done].
    rewrite Et in Hp. apply elem_of_app in Hp as [Hp|Hp%list_elem_of_singleton]; [done|].
    subst p. by rewrite Hch in Hc.
Qed.

(** ** How long the loop runs *)

Lemma untainted_nil n : untainted n [] = n.
Proof.
  unfold untainted. transitivity (length (seq 0 n)); [|apply length_seq]. f_equal.
  generalize (seq 0 n). intros l. induction l as [|i l IH]; [done|].
  rewrite filter_cons_True by apply not_elem_of_nil. by rewrite IH.
Qed.

Lemma taint_measure_start bs source :
  taint_measure (taint_start source bs) = visits_bound (max_children bs) (length bs).
Proof.
  unfold taint_measure, taint_start. simpl.
  rewrite (max_children_structure _ _ (same_structure_alter 1 source bs)), length_alter.
  unfold weight. rewrite untainted_nil. rewrite decide_False by apply not_elem_of_nil.
  by rewrite !Nat.add_0_r.
Qed.

Lemma taint_steps_visits st st' :
  wf_state st → taint_steps st st' →
  length (tainted_blocks st') + taint_measure st' ≤ length (tainted_blocks st) + taint_measure st.
Proof.
  intros W R. induction R as [|st1 st2 st3 S1 _ IH]; [done|].
  pose proof (taint_step_measure _ _ W S1) as M.
  specialize (IH (taint_step_wf _ _ W S1)).
  assert (length (tainted_blocks st2) = S (length (tainted_blocks st1))) as E.
  { unfold taint_step in S1. destruct (blocks_to_taint st1); simplify_eq/=.
    rewrite length_app. simpl. lia. }
  lia.
Qed.

(** X4: the loop of [_taint_variable] ends after at most
    [1 + D + D^2 + ... + D^n] visits, where [n] is the number of Variable
    Blocks and [D] the longest [children_blocks] list
    ([visits_bound D n]); when no block has more than one child this is at
    most [n + 1] visits. *)
Theorem _taint_variable_visits_bound bs source :
  wf_blocks bs → source < length bs →
  ∃ fuel st, _taint_variable_run fuel source bs = Some st ∧
    length (tainted_blocks st) ≤ visits_bound (max_children bs) (length bs) ∧
    (max_children bs ≤ 1 → length (tainted_blocks st) ≤ S (length bs)).
Proof.
  intros W Hs. destruct (_taint_variable_run_terminates source bs W Hs) as (fuel & st & R).
  exists fuel, st. split; [done|].
  pose proof (taint_steps_visits _ _ (taint_start_wf source bs W Hs) (taint_loop_steps _ _ _ R)) as B.
  rewrite taint_measure_start in B. simpl in B.
  assert (length (tainted_blocks st) ≤ visits_bound (max_children bs) (length bs)) as B' by lia.
  split; [done|]. intros D.
  assert (∀ n, visits_bound (max_children bs) n ≤ S n) as L.
  { induction n as [|n IH]; simpl; [lia|]. nia. }
  specialize (L (length bs)). lia.
Qed.

(** ** Coefficients left by earlier runs *)

Lemma set_coefficient_structure k b1 b2 :
  set_coefficient 0 b1 = set_coefficient 0 b2 → set_coefficient k b1 = set_coefficient k b2.
Proof.
  destruct b1, b2. unfold set_coefficient. simpl. intros E.
  injection E as -> -> -> -> -> -> ->. done.
Qed.

Lemma taint_child_agree (S : nat → Prop) parent bs1 bs2 c :
  same_structure bs1 bs2 → S parent → is_Some (bs1 !! parent) →
  (∀ i, S i → bs1 !! i = bs2 !! i) →
  same_structure (taint_child parent bs1 c) (taint_child parent bs2 c) ∧
  ∀ i, S i ∨ i = c → taint_child parent bs1 c !! i = taint_child parent bs2 c !! i.
Proof.
  intros E Hp [p Ep] A. split.
  { eapply same_structure_trans; [|apply taint_child_structure].
    eapply same_structure_trans; [|exact E].
    symmetry. apply taint_child_structure. }
  intros i Hi. unfold taint_child. rewrite <- (A parent Hp), Ep.
  rewrite !list_lookup_alter. case_decide as Hc.
  - subst i. pose proof (same_structure_lookup _ _ c E) as L.
    destruct (bs1 !! c) as [b1|], (bs2 !! c) as [b2|]; try done.
    apply (inj Some) in L. simpl. f_equal. symmetry. by apply set_coefficient_structure.
  - destruct Hi as [Hi|Hi]; [by apply A | done].
Qed.

Lemma foldl_taint_child_agree (S : nat → Prop) parent cs bs1 bs2 :
  same_structure bs1 bs2 → S parent → is_Some (bs1 !! parent) →
  (∀ i, S i → bs1 !! i = bs2 !! i) →
  same_structure (foldl (taint_child parent) bs1 cs) (foldl (taint_child parent) bs2 cs) ∧
  ∀ i, S i ∨ i ∈ cs →
    foldl (taint_child parent) bs1 cs !! i = foldl (taint_child parent) bs2 cs !! i.
Proof.
  revert S bs1 bs2. induction cs as [|c cs IH]; intros S bs1 bs2 E Hp Ip A; simpl.
  { split; [done|]. intros i [Hi|Hi%elem_of_nil]; [by apply A | done]. }
  destruct (taint_child_agree S parent bs1 bs2 c E Hp Ip A) as [E1 A1].
  destruct (IH (λ i, S i ∨ i = c) _ _ E1) as [E2 A2]; [by left| |done|].
  { apply lookup_lt_is_Some. rewrite taint_child_length. by apply lookup_lt_is_Some. }
  split; [done|]. intros i Hi. apply A2.
  destruct Hi as [Hi|[->|Hi]%elem_of_cons]; auto.
Qed.

Lemma taint_step_in_step st1 st2 st1' :
  wf_state st1 → in_step st1 st2 → taint_step st1 = Some st1' →
  ∃ st2', taint_step st2 = Some st2' ∧ in_step st1' st2'.
Proof.
  intros [W Q] (Eq & Et & E & A) S1. unfold taint_step in *. rewrite <- Eq, <- Et.
  destruct (blocks_to_taint st1) as [|h rest] eqn:Q1; simplify_eq/=.
  apply Forall_cons in Q as [Hh Q]. eexists. split; [done|].
  assert (Eh : blocks st1 !! h = blocks st2 !! h).
  { apply A. apply list_elem_of_here. }
  assert (Ec : children_of (blocks st2) h = children_of (blocks st1) h).
  { unfold children_of. by rewrite Eh. }
  unfold taint_children_blocks. rewrite Ec.
  destruct (foldl_taint_child_agree
              (λ i, i ∈ (h :: rest) ++ tainted_blocks st1) h
              (children_of (blocks st1) h) (blocks st1) (blocks st2) E) as [E' A'];
    [apply elem_of_app; left; apply list_elem_of_here | by apply lookup_lt_is_Some | done |].
  split; [done|]. split; [done|]. split; [done|]. simpl.
  intros i Hi. apply A'.
  apply elem_of_app in Hi as [[Hi|[_ Hi]%list_elem_of_filter]%elem_of_app|Hi].
  - left. apply elem_of_app. left. by apply list_elem_of_further.
  - by right.
  - apply elem_of_app in Hi as [Hi|Hi%list_elem_of_singleton].
    + left. apply elem_of_app. by right.
    + left. subst i. apply elem_of_app. left. apply list_elem_of_here.
Qed.

Lemma taint_loop_in_step fuel st1 st2 r1 :
  wf_state st1 → in_step st1 st2 → taint_loop fuel st1 = Some r1 →
  ∃ r2, taint_loop fuel st2 = Some r2 ∧ in_step r1 r2.
Proof.
  revert st1 st2. induction fuel as [|fuel IH]; intros st1 st2 W I; simpl.
  - pose proof I as (Eq & _). rewrite <- Eq.
    destruct (blocks_to_taint st1); [|done]. intros; simplify_eq. by eexists.
  - pose proof I as (Eq & _). rewrite <- Eq.
    destruct (blocks_to_taint st1) eqn:Q1; [intros; simplify_eq; by eexists|].
    destruct (taint_step st1) as [st1'|] eqn:S1; simpl; [|done].
    destruct (taint_step_in_step _ _ _ W I S1) as (st2' & S2 & I'). rewrite S2. simpl.
    apply IH; [by eapply taint_step_wf | done].
Qed.

Lemma taint_start_in_step bs bs' source :
  same_structure bs bs' → in_step (taint_start source bs) (taint_start source bs').
Proof.
  intros E. split; [done|]. split; [done|]. simpl. split.
  - eapply same_structure_trans; [|apply same_structure_alter].
    eapply same_structure_trans; [|exact E]. symmetry. apply same_structure_alter.
  - intros i Hi%list_elem_of_singleton. subst i.
    rewrite !list_lookup_alter, !decide_True by done.
    pose proof (same_structure_lookup _ _ source E) as L.
    destruct (bs !! source) as [b1|], (bs' !! source) as [b2|]; try done.
    apply (inj Some) in L. simpl. f_equal. symmetry. by apply set_coefficient_structure.
Qed.

(** X13: the coefficients present before [_taint_variable] runs have no
    influence on the run: on two block lists that differ in coefficients
    only, the loop returns within a given number of iterations on one exactly
    when it does on the other, it visits the same blocks in the same order,
    and it leaves every block reachable from the source identical in both. *)
Theorem _taint_variable_ignores_coefficients bs bs' source :
  wf_blocks bs → source < length bs → same_structure bs bs' →
  (∀ fuel, is_Some (_taint_variable_run fuel source bs)
           ↔ is_Some (_taint_variable_run fuel source bs')) ∧
  ∃ fuel st st',
    _taint_variable_run fuel source bs = Some st ∧
    _taint_variable_run fuel source bs' = Some st' ∧
    tainted_blocks st = tainted_blocks st' ∧
    _taint_variable fuel source bs = Some (blocks st) ∧
    _taint_variable fuel source bs' = Some (blocks st') ∧
    ∀ i, reachable bs source i → blocks st !! i = blocks st' !! i.
Proof.
  intros W Hs E.
  assert (W' : wf_blocks bs') by (by eapply wf_blocks_structure).
  assert (Hs' : source < length bs') by (pose proof (same_structure_length _ _ E); lia).
  assert (E' : same_structure bs' bs) by done.
  split.
  - intros fuel. unfold _taint_variable_run. split; intros [r R].
    + destruct (taint_loop_in_step fuel _ _ r (taint_start_wf source bs W Hs)
                  (taint_start_in_step bs bs' source E) R) as (r' & R' & _). by exists r'.
    + destruct (taint_loop_in_step fuel _ _ r (taint_start_wf source bs' W' Hs')
                  (taint_start_in_step bs' bs source E') R) as (r' & R' & _). by exists r'.
  - destruct (_taint_variable_run_invariant bs source W Hs) as (fuel & st & R & Q & I).
    destruct (taint_loop_in_step fuel _ _ st (taint_start_wf source bs W Hs)
                (taint_start_in_step bs bs' source E) R) as (st' & R' & _ & Et & _ & A).
    exists fuel, st, st'. unfold _taint_variable, _taint_variable_run.
    unfold _taint_variable_run in R. rewrite R, R'. do 5 (split; [done|]).
    intros i Hi. apply A. rewrite Q. simpl. by apply (taint_invariant_closed bs source st).
Qed.

Lemma reachable_structure bs bs' source i :
  same_structure bs bs' → reachable bs' source i ↔ reachable bs source i.
Proof.
  intros E. unfold reachable.
  split; apply rtc_subrel; intros p c; unfold child_of;
    by rewrite (same_structure_children _ _ p E).
Qed.

Lemma same_structure_argument bs bs' a b' :
  same_structure bs bs' → bs' !! a = Some b' →
  ∃ b, bs !! a = Some b ∧ b_is_function_argument b = b_is_function_argument b'.
Proof.
  intros E Hb'. apply (same_structure_lookup _ _ a) in E. rewrite Hb' in E.
  destruct (bs !! a) as [b|]; simplify_eq/=. exists b. split; [done|]. by destruct b, b'; simplify_eq/=.
Qed.

Lemma reached_from_cons bs0 a todo i :
  reached_from bs0 (a :: todo) i ↔
  (∃ b, bs0 !! a = Some b ∧ b_is_function_argument b = true ∧ reachable bs0 a i) ∨
  reached_from bs0 todo i.
Proof.
  unfold reached_from. split.
  - intros (a' & b & Hin & Hb & Ha & R). apply elem_of_cons in Hin as [->|Hin].
    + left. by exists b.
    + right. by exists a', b.
  - intros [(b & Hb & Ha & R)|(a' & b & Hin & ?)].
    + exists a, b. split; [by left|done].
    + exists a', b. split; [by right|done].
Qed.

Lemma taint_arguments_from_spec bs0 todo bs :
  wf_blocks bs → same_structure bs0 bs →
  ∃ fuel bs', taint_arguments_from fuel todo bs = Some bs' ∧
    ∀ i, (reached_from bs0 todo i ∧ ∃ k, coefficient bs' i = Some (decay k)) ∨
         (¬ reached_from bs0 todo i ∧ bs' !! i = bs !! i).
Proof.
  revert bs. induction todo as [|a todo IH]; intros bs W E; simpl.
  { exists 0, bs. split; [done|]. intros i. right. split; [|done].
    by intros (a & b & ?%elem_of_nil & _). }
  assert (Skip : (∀ b0, bs0 !! a = Some b0 → b_is_function_argument b0 = false) →
    ∃ fuel bs', taint_arguments_from fuel todo bs = Some bs' ∧
      ∀ i, (reached_from bs0 (a :: todo) i ∧ ∃ k, coefficient bs' i = Some (decay k)) ∨
           (¬ reached_from bs0 (a :: todo) i ∧ bs' !! i = bs !! i)).
  { intros Hno. destruct (IH bs W E) as (fuel & bs' & R & Hi). exists fuel, bs'.
    split; [done|]. intros i. rewrite reached_from_cons.
    destruct (Hi i) as [[Hr Hk]|[Hn Eq]]; [left; split; [by right|done]|right].
    split; [|done]. intros [(b & Hb & Ha & _)|?]; [|done].
    rewrite (Hno b Hb) in Ha. done. }
  destruct (bs !! a) as [b|] eqn:Hb.
  2:{ apply Skip. intros b0 Hb0. apply (same_structure_lookup _ _ a) in E.
      rewrite Hb, Hb0 in E. done. }
  destruct (same_structure_argument bs0 bs a b E Hb) as (b0 & Hb0 & Earg).
  destruct (b_is_function_argument b) eqn:Harg.
  2:{ apply Skip. intros b1 Hb1. by simplify_eq. }
  destruct (_taint_variable_cases bs a W (lookup_lt_Some _ _ _ Hb)) as (f1 & bs1 & T & H1).
  pose proof (_taint_variable_structure _ _ _ _ T) as E1.
  destruct (IH bs1) as (f2 & bs2 & R & H2).
  { by eapply wf_blocks_structure. }
  { by eapply same_structure_trans. }
  exists (f1 `max` f2), bs2.
  rewrite (_taint_variable_fuel_mono f1 _ _ _ _ (Nat.le_max_l _ _) T). simpl.
  split; [by apply (taint_arguments_from_fuel_mono f2 _ _ _ _ (Nat.le_max_r _ _))|].
  intros i. rewrite reached_from_cons.
  destruct (H2 i) as [[Hr Hk]|[Hn Eq]]; [left; split; [by right|done]|].
  destruct (H1 i) as [[Ri (k & Hk & _)]|[Hni Eqi]].
  - left. split.
    + left. exists b0. split; [done|]. split; [done|]. by apply (reachable_structure bs0 bs).
    + exists k. unfold coefficient. rewrite Eq. exact Hk.
  - right. split; [|congruence]. intros [(b1 & Hb1 & _ & R1)|?]; [|done].
    by apply Hni, (reachable_structure bs0 bs).
Qed.

Lemma reached_from_all bs i :
  reached_from bs (seq 0 (length bs)) i ↔ argument_reachable bs i.
Proof.
  unfold reached_from, argument_reachable. split.
  - intros (a & b & _ & ?). by exists a, b.
  - intros (a & b & Hb & ?). exists a, b. split; [|done].
    apply elem_of_seq. apply lookup_lt_Some in Hb. lia.
Qed.

Lemma _taint_functions_arguments_cases d :
  wf_blocks (variables_blocks d) →
  ∃ fuel d', _taint_functions_arguments fuel (_clean_tainting d) = Some d' ∧
    ∀ i b', variables_blocks d' !! i = Some b' →
      (argument_reachable (variables_blocks d) i ∧ ∃ k, tainting_coefficient b' = decay k) ∨
      (¬ argument_reachable (variables_blocks d) i ∧ tainting_coefficient b' = 0%float).
Proof.
  intros W.
  pose proof (same_structure_fmap 0 (variables_blocks d)) as E.
  destruct (taint_arguments_from_spec (variables_blocks d)
              (seq 0 (length (set_coefficient 0 <$> variables_blocks d)))
              (set_coefficient 0 <$> variables_blocks d))
    as (fuel & bs' & R & Hi); [by eapply wf_blocks_structure|done|].
  exists fuel, (with_variables_blocks (_clean_tainting d) bs').
  unfold _taint_functions_arguments. simpl. rewrite R. split; [done|].
  intros i b' Hb'. rewrite length_fmap in Hi.
  destruct (Hi i) as [[Hr (k & Hk)]|[Hn Eq]].
  - apply reached_from_all in Hr. left. split; [done|]. exists k.
    unfold coefficient in Hk. rewrite Hb' in Hk. by simplify_eq/=.
  - rewrite reached_from_all in Hn. right. split; [done|].
    rewrite Hb', list_lookup_fmap in Eq.
    destruct (variables_blocks d !! i); by simplify_eq/=.
Qed.

(** ** Call blocks *)

Lemma create_function_call_call_block_of d v :
  create_function_call d v =
  with_functions_calls_blocks d (functions_calls_blocks d ++ option_list (call_block_of v)).
Proof.
  unfold create_function_call, call_block_of. destruct d as [vs0 bs0 cs0 fs0 es0 args0]. simpl.
  destruct (v_value v) as [[|]|]; unfold with_functions_calls_blocks; simpl;
    by rewrite ?app_nil_r.
Qed.

Lemma foldl_create_function_call_blocks vs d :
  foldl create_function_call d vs =
  with_functions_calls_blocks d (functions_calls_blocks d ++ omap call_block_of vs).
Proof.
  revert d. induction vs as [|v vs IH]; intros d; simpl.
  - rewrite app_nil_r. by destruct d.
  - rewrite IH, create_function_call_call_block_of. unfold with_functions_calls_blocks; simpl.
    f_equal. rewrite <- app_assoc. f_equal. by destruct (call_block_of v).
Qed.

Lemma create_edges_of_calls d v d' :
  create_edges_of d v = Ok d' →
  functions_calls_blocks d' = functions_calls_blocks d ∧
  all_functions_arguments d' = all_functions_arguments d ∧
  Forall2 same_but_relations (variables_blocks d) (variables_blocks d').
Proof.
  intros R.
  destruct (create_edges_of_Ok d v d' R) as [[-> _]|(operation & dest & rest & Hv & Hd & Hc)].
  { split; [done|]. split; [done|]. by apply Forall_Forall2_diag, Forall_true. }
  destruct (create_edges_of_spec d v operation dest rest Hv Hd Hc)
    as (d'' & values & R' & _ & _ & E1 & E2 & E & _).
  rewrite R in R'. simplify_eq. split; [done|]. split; [done|].
  apply Forall2_same_length_lookup_2; [symmetry; exact (lookup_fmap_length _ _ _ E)|].
  intros i b b' Hb Hb'. rewrite E, Hb in Hb'. by simplify_eq/=.
Qed.

Lemma same_but_relations_trans (l1 l2 l3 : list (@DFGVariableBlock Function)) :
  Forall2 same_but_relations l1 l2 → Forall2 same_but_relations l2 l3 →
  Forall2 same_but_relations l1 l3.
Proof.
  intros F1 F2. eapply Forall2_trans; [|exact F1|exact F2].
  intros b1 b2 b3 (?&?&?&?&?&?) (?&?&?&?&?&?). repeat split; congruence.
Qed.

Lemma for_each_create_edges_of_calls vs d d' :
  for_each create_edges_of d vs = Ok d' →
  functions_calls_blocks d' = functions_calls_blocks d ∧
  all_functions_arguments d' = all_functions_arguments d ∧
  Forall2 same_but_relations (variables_blocks d) (variables_blocks d').
Proof.
  revert d. induction vs as [|v vs IH]; intros d; simpl.
  - intros; simplify_eq. split; [done|]. split; [done|]. by apply Forall_Forall2_diag, Forall_true.
  - destruct (create_edges_of d v) as [d1|e] eqn:R; simpl; [|done]. intros R'.
    destruct (create_edges_of_calls d v d1 R) as (E1 & E2 & F1).
    destruct (IH d1 R') as (E1' & E2' & F2).
    split; [congruence|]. split; [congruence|]. by eapply same_but_relations_trans.
Qed.

(** X5: [_create_functions_calls] appends one Call Block per variable whose
    value is a function call, in the order of the variables, with the
    callee's name, its explicit arguments, its return values, the variable's
    function and the call number; it does so also for variables that get no
    Variable Block, it leaves the Variable Blocks alone, and
    [_create_edges] keeps the Call Blocks as they are. *)
Theorem _create_functions_calls_one_per_call vs :
  functions_calls_blocks (_create_functions_calls (_create_blocks (__init__ vs)))
    = omap call_block_of vs ∧
  variables_blocks (_create_functions_calls (_create_blocks (__init__ vs)))
    = variables_blocks (_create_blocks (__init__ vs)) ∧
  (∀ d, functions_calls_blocks (_create_functions_calls d)
        = functions_calls_blocks d ++ omap call_block_of (variables d)) ∧
  (∀ d, _create_dfg (__init__ vs) = Ok d → functions_calls_blocks d = omap call_block_of vs).
Proof.
  assert (E : functions_calls_blocks (blocks_created vs) = omap call_block_of vs).
  { unfold blocks_created, _create_functions_calls. rewrite foldl_create_function_call_blocks.
    simpl. unfold _create_blocks. by rewrite foldl_create_block. }
  split; [exact E|]. split; [apply blocks_created_fields|]. split.
  - intros d. unfold _create_functions_calls. by rewrite foldl_create_function_call_blocks.
  - intros d R. unfold _create_dfg, _create_edges in R.
    destruct (for_each_create_edges_of_calls _ _ _ R) as (-> & _). exact E.
Qed.


(** ** The blocks of the finished graph *)

Lemma _create_dfg_blocks vs d :
  _create_dfg (__init__ vs) = Ok d →
  all_functions_arguments d = all_functions_arguments (_create_blocks (__init__ vs)) ∧
  Forall2 same_but_relations
    (variables_blocks (_create_blocks (__init__ vs))) (variables_blocks d).
Proof.
  intros R. unfold _create_dfg, _create_edges in R.
  destruct (for_each_create_edges_of_calls _ _ _ R) as (_ & Ea & F).
  destruct (foldl_create_function_call (variables (_create_blocks (__init__ vs)))
              (_create_blocks (__init__ vs))) as (_ & Eb & _ & _ & Ea').
  fold (_create_functions_calls (_create_blocks (__init__ vs))) in Eb, Ea'.
  rewrite Eb in F. rewrite Ea' in Ea. done.
Qed.

Lemma _create_dfg_untainted vs d :
  _create_dfg (__init__ vs) = Ok d →
  Forall (λ b, tainting_coefficient b = 0%float) (variables_blocks d).
Proof.
  intros R. destruct (_create_dfg_blocks vs d R) as [_ F].
  apply Forall_lookup. intros i b Hb.
  destruct (Forall2_lookup_r _ _ _ _ _ F Hb) as (b0 & Hb0 & (_&_&_&_&_& ->)).
  destruct (Forall2_lookup_r _ _ _ _ _ (_create_blocks_matches vs) Hb0)
    as (v & _ & (_&_&_&_&_&_&_& E)). done.
Qed.

(** X6: a finished graph still has the variables and argument names it was
    created with, and its Variable Blocks are those of [_create_blocks] up to
    [parents_blocks] and [children_blocks]: one per analysable variable, in
    order, with the variable's name, function and flags, a coefficient of
    [0], and a display name that is [_get_variable_name] of the block. *)
Theorem _create_dfg_keeps_blocks vs d :
  _create_dfg (__init__ vs) = Ok d →
  variables d = vs ∧
  all_functions_arguments d = all_functions_arguments (__init__ vs) ∧
  Forall2 same_but_relations
    (variables_blocks (_create_blocks (__init__ vs))) (variables_blocks d) ∧
  Forall2 (λ v b,
      b_name b = v_name v ∧
      v_function v = Some (b_function b) ∧
      b_is_function_argument b = v_is_function_argument v ∧
      b_is_function_return_value b = v_is_function_return_value v ∧
      graph_representation_name b = Some (_get_variable_name d b) ∧
      tainting_coefficient b = 0%float)
    (filter analysable vs) (variables_blocks d).
Proof.
  intros R. destruct (_create_dfg_built vs d R) as (_ & _ & Ev).
  destruct (_create_dfg_blocks vs d R) as [Ea F].
  assert (Ea0 : all_functions_arguments (_create_blocks (__init__ vs))
                = all_functions_arguments (__init__ vs)).
  { unfold _create_blocks. by rewrite foldl_create_block. }
  split; [done|]. split; [congruence|]. split; [done|].
  eapply Forall2_trans; [|apply _create_blocks_matches|exact F].
  intros v b b' (M1 & M2 & M3 & M4 & M5 & _ & _ & M8) (S1 & S2 & S3 & S4 & S5 & S6).
  repeat split; try congruence.
  rewrite S5, M5. f_equal. unfold _get_variable_name, prefixed_name.
  by rewrite Ea, S1, S2.
Qed.

(** ** The function scope of edges *)

Lemma same_keys_lookup bs bs' i b :
  same_keys bs bs' → bs !! i = Some b →
  ∃ b', bs' !! i = Some b' ∧ b_function b' = b_function b.
Proof.
  intros K Hb. destruct (Forall2_lookup_l _ _ _ _ _ K Hb) as (b' & Hb' & _ & Ef).
  by exists b'.
Qed.

Lemma create_edges_of_scoped d v d' :
  edges_scoped d → create_edges_of d v = Ok d' → edges_scoped d'.
Proof.
  intros I R. pose proof (create_edges_of_keys d v d' R) as [K _].
  destruct (create_edges_of_Ok d v d' R) as [[-> _]|(operation & dest & rest & Hv & Hd & Hc)];
    [done|].
  destruct (create_edges_of_spec d v operation dest rest Hv Hd Hc)
    as (d'' & values & R' & Fv & _ & _ & _ & Eb & Ec & Ee).
  rewrite R in R'. simplify_eq.
  assert (Hdest : ∃ bd, variables_blocks d !! dest = Some bd ∧
                        v_function v = Some (b_function bd)).
  { assert (Hin : dest ∈ positions (is_destination v) (variables_blocks d))
      by (rewrite Hd; by left).
    apply elem_of_positions in Hin as (bd & Hbd & [Hf _]%is_destination_true). by exists bd. }
  destruct Hdest as (bd & Hbd & Hfd).
  destruct (same_keys_lookup _ _ dest bd K Hbd) as (bd' & Hbd' & Efd).
  unfold edges_scoped. rewrite Ee, Ec. rewrite !Forall_app. split; [|split].
  - eapply Forall_impl; [exact I|]. intros e (b0 & Hb0 & Hf0 & Hsrc).
    destruct (same_keys_lookup _ _ _ b0 K Hb0) as (b0' & Hb0' & Ef0).
    exists b0'. split; [done|]. split; [congruence|].
    destruct (e_source e) as [s|k].
    + destruct Hsrc as (bsrc & Hs & Efs).
      destruct (same_keys_lookup _ _ s bsrc K Hs) as (bsrc' & Hs' & Efs').
      exists bsrc'. split; [done|]. congruence.
    + destruct Hsrc as (c & Hc' & Efc). exists c. split; [by apply lookup_app_l_Some|].
      congruence.
  - apply Forall_fmap, Forall_forall. intros s Hs. simpl.
    exists bd'. split; [done|]. split; [congruence|].
    unfold source_blocks in Hs. apply list_elem_of_bind in Hs as (o & Hs & _).
    apply elem_of_positions in Hs as (bsrc & Hbsrc & [Hfs _]%is_source_true).
    destruct (same_keys_lookup _ _ s bsrc K Hbsrc) as (bsrc' & Hs' & Efs').
    exists bsrc'. split; [done|]. congruence.
  - apply Forall_lookup. intros k e He. rewrite list_lookup_imap in He.
    destruct (values !! k) as [a|] eqn:Ha; simplify_eq/=.
    exists bd'. split; [done|]. split; [congruence|].
    exists (constant_block v (length (constants_blocks d) + k) a). split; [|simpl; congruence].
    rewrite lookup_app_r by lia. rewrite list_lookup_imap.
    replace (length (constants_blocks d) + k - length (constants_blocks d)) with k by lia.
    by rewrite Ha.
Qed.

Lemma for_each_create_edges_of_scoped vs d d' :
  edges_scoped d → for_each create_edges_of d vs = Ok d' → edges_scoped d'.
Proof.
  revert d. induction vs as [|v vs IH]; intros d I; simpl.
  - intros; by simplify_eq.
  - destruct (create_edges_of d v) as [d1|e] eqn:R; simpl; [|done].
    apply IH. by eapply create_edges_of_scoped.
Qed.

(** X7: in a finished graph every edge is filed under the function of its
    destination block, that function is not an import, and the source of the
    edge (Variable or Constant Block) belongs to the same function: no edge
    crosses functions. *)
Theorem _create_dfg_edges_scoped vs d :
  _create_dfg (__init__ vs) = Ok d →
  Forall (λ e,
    ∃ bd, variables_blocks d !! e_destination e = Some bd ∧
          e_function e = Some (b_function bd) ∧
          f_is_import (b_function bd) = false ∧
          match e_source e with
          | VariableRef s =>
              ∃ bsrc, variables_blocks d !! s = Some bsrc ∧ b_function bsrc = b_function bd
          | ConstantRef k =>
              ∃ c, constants_blocks d !! k = Some c ∧ c_function c = Some (b_function bd)
          end) (edges d).
Proof.
  intros R. destruct (_create_dfg_built vs d R) as (_ & K & _).
  unfold _create_dfg, _create_edges in R. fold (blocks_created vs) in R.
  assert (I0 : edges_scoped (blocks_created vs)).
  { unfold edges_scoped. destruct (blocks_created_fields vs) as (_ & _ & _ & ->). constructor. }
  pose proof (for_each_create_edges_of_scoped _ _ _ I0 R) as I.
  eapply Forall_impl; [exact I|]. intros e (bd & Hbd & Hf & Hsrc).
  exists bd. split; [done|]. split; [done|]. split; [|done].
  destruct (Forall2_lookup_r _ _ _ _ _ K Hbd) as (b0 & Hb0 & _ & Ef). rewrite Ef.
  by eapply _create_blocks_not_import, list_elem_of_lookup_2.
Qed.

(** ** Parents and children mirror each other *)

Lemma elem_of_edge_children i c es :
  c ∈ edge_children i es ↔ ∃ e, e ∈ es ∧ e_source e = VariableRef i ∧ e_destination e = c.
Proof.
  unfold edge_children. rewrite list_elem_of_omap. split.
  - intros (e & He & Hc). exists e. split; [done|].
    destruct (e_source e) as [s|k]; [|done]. case_decide; simplify_eq. done.
  - intros (e & He & Hs & Hd). exists e. split; [done|]. rewrite Hs, decide_True by done.
    by rewrite Hd.
Qed.

Lemma elem_of_edge_parents c i es :
  i ∈ edge_parents c es ↔ ∃ e, e ∈ es ∧ e_source e = VariableRef i ∧ e_destination e = c.
Proof.
  unfold edge_parents. rewrite list_elem_of_omap. split.
  - intros (e & He & Hc). exists e. split; [done|].
    destruct (e_source e) as [s|k]; [|done]. case_decide; simplify_eq. done.
  - intros (e & He & Hs & Hd). exists e. split; [done|]. rewrite Hs, decide_True by done.
    done.
Qed.

Lemma count_edge_children_parents i c es :
  length (filter (λ x, x = c) (edge_children i es))
  = length (filter (λ x, x = i) (edge_parents c es)).
Proof.
  unfold edge_children, edge_parents. induction es as [|e es IH]; [done|]. csimpl.
  destruct (e_source e) as [s|k]; [|done].
  destruct (decide (s = i)) as [Hs|Hs], (decide (e_destination e = c)) as [Hd|Hd]; csimpl.
  - rewrite !filter_cons_True by done. simpl. by rewrite IH.
  - by rewrite filter_cons_False by done.
  - by rewrite filter_cons_False by done.
  - done.
Qed.

(** X14: in a graph built by [_create_dfg], block [c] is in the
    [children_blocks] of block [p] exactly when [p] is in the
    [parents_blocks] of [c], exactly when an edge leads from [p] to [c], and
    [c] occurs among the children of [p] as often as [p] among the parents
    of [c]. *)
Theorem _create_dfg_parents_mirror_children vs d :
  _create_dfg (__init__ vs) = Ok d →
  ∀ p c bp bc,
    variables_blocks d !! p = Some bp → variables_blocks d !! c = Some bc →
    (c ∈ children_blocks bp ↔ p ∈ parents_blocks bc) ∧
    (c ∈ children_blocks bp ↔
       ∃ e, e ∈ edges d ∧ e_source e = VariableRef p ∧ e_destination e = c) ∧
    length (filter (λ x, x = c) (children_blocks bp))
    = length (filter (λ x, x = p) (parents_blocks bc)).
Proof.
  intros R p c bp bc Hp Hc. destruct (_create_dfg_built vs d R) as ((Ireg & _) & _ & _).
  destruct (Ireg p bp Hp) as [-> _]. destruct (Ireg c bc Hc) as [_ ->].
  split; [|split].
  - by rewrite elem_of_edge_children, elem_of_edge_parents.
  - apply elem_of_edge_children.
  - apply count_edge_children_parents.
Qed.


(** ** One block per (function, name) pair *)

Lemma _create_blocks_keys vs :
  block_key <$> variables_blocks (_create_blocks (__init__ vs))
  = variable_key <$> filter analysable vs.
Proof.
  pose proof (_create_blocks_matches vs) as F.
  induction F as [|v b l k (M1 & M2 & _) F IH]; csimpl; [done|].
  rewrite IH. f_equal. unfold block_key, variable_key. by rewrite M1, M2.
Qed.

Lemma positions_singleton bs (P : DFGVariableBlock → bool) :
  NoDup (block_key <$> bs) →
  (∀ b b', P b = true → P b' = true → block_key b = block_key b') →
  positions P bs ≠ [] → ∃ i, positions P bs = [i].
Proof.
  intros ND Hkey Hne. destruct (positions P bs) as [|i rest] eqn:Hp; [done|].
  exists i. destruct rest as [|j rest]; [done|]. exfalso.
  assert (Hi : i ∈ positions P bs) by (rewrite Hp; by left).
  assert (Hj : j ∈ positions P bs) by (rewrite Hp; right; by left).
  apply elem_of_positions in Hi as (bi & Hbi & Pi).
  apply elem_of_positions in Hj as (bj & Hbj & Pj).
  assert (i = j).
  { apply (NoDup_lookup _ i j (block_key bi) ND); rewrite list_lookup_fmap.
    - by rewrite Hbi.
    - rewrite Hbj. simpl. f_equal. by apply Hkey. }
  subst. pose proof (NoDup_positions P bs) as ND'. rewrite Hp in ND'.
  apply NoDup_cons in ND' as [Hn _]. apply Hn. by left.
Qed.

Lemma same_keys_block_key bs bs' :
  same_keys bs bs' → block_key <$> bs' = block_key <$> bs.
Proof.
  intros K. induction K as [|b b' l k [E1 E2] K IH]; csimpl; [done|].
  rewrite IH. f_equal. unfold block_key. by rewrite E1, E2.
Qed.

(** X8: the (name, function) keys of the Variable Blocks are those of the
    analysable variables, in order. When these keys are pairwise distinct,
    the destination lookup of [_create_edges] for an analysable variable
    selects exactly one block, a scalar variable operand selects that same
    block, and this stays so in the finished graph. *)
Theorem _create_blocks_unique vs :
  block_key <$> variables_blocks (_create_blocks (__init__ vs))
    = variable_key <$> filter analysable vs ∧
  (NoDup (variable_key <$> filter analysable vs) →
   ∀ v, v ∈ vs → analysable v →
     ∃ i, positions (is_destination v) (variables_blocks (_create_blocks (__init__ vs))) = [i] ∧
          (∀ o a, op_value o = Scalar a →
             positions (is_source v o) (variables_blocks (_create_blocks (__init__ vs))) = [i]) ∧
          (∀ d, _create_dfg (__init__ vs) = Ok d →
             NoDup (block_key <$> variables_blocks d) ∧
             positions (is_destination v) (variables_blocks d) = [i])).
Proof.
  split; [apply _create_blocks_keys|]. intros ND v Hin Ha.
  rewrite <- _create_blocks_keys in ND.
  destruct (positions_singleton (variables_blocks (_create_blocks (__init__ vs)))
              (is_destination v) ND) as [i Hi].
  { intros b b' [E1 E2]%is_destination_true [E1' E2']%is_destination_true.
    unfold block_key. rewrite <- E2, <- E2'. f_equal. congruence. }
  { intros Hp. by apply (_create_blocks_destination vs v Hp Hin). }
  exists i. split; [done|]. split.
  - intros o a Ho. by rewrite (is_source_scalar v o a _ Ho).
  - intros d R. destruct (_create_dfg_built vs d R) as (_ & K & _).
    split; [by rewrite (same_keys_block_key _ _ K)|].
    by rewrite (same_keys_destination _ _ _ K).
Qed.

End Properties.

(** * Colours of the coefficients *)

Lemma format_02x_byte (n : Z) : (0 ≤ n ≤ 255)%Z → String.length (format_02x n) = 2.
Proof.
  intros Hn.
  assert (Hall : forallb (λ k, String.length (format_02x (Z.of_nat k)) =? 2) (seq 0 256) = true)
    by (vm_compute; reflexivity).
  rewrite forallb_forall in Hall. specialize (Hall (Z.to_nat n)).
  rewrite Z2Nat.id in Hall by lia. apply Nat.eqb_eq, Hall, in_seq. lia.
Qed.

(** X9: the colour [_get_taint] returns is [#ff] followed twice by the
    same channel value [int((1 - coefficient) * 255)] printed with [%02x];
    it has 7 characters when that value is a byte. The conversion errors of
    the channel are those of [_get_taint]: NaN raises [ValueError], the
    infinities raise [OverflowError]; a coefficient of [2] gives the
    malformed colour [#ff-ff-ff]. *)
Theorem _get_taint_channels coefficient :
  (∀ e, channel coefficient = inl e → _get_taint coefficient = inl e) ∧
  (∀ n, channel coefficient = inr n →
     _get_taint coefficient = inr ("#ff" +:+ format_02x n +:+ format_02x n) ∧
     ((0 ≤ n ≤ 255)%Z →
        String.length ("#ff" +:+ format_02x n +:+ format_02x n) = 7)) ∧
  _get_taint nan = inl ValueError ∧
  _get_taint infinity = inl OverflowError ∧
  _get_taint neg_infinity = inl OverflowError ∧
  _get_taint 2 = inr "#ff-ff-ff".
Proof.
  assert (Red : int_of_float ((0 + 1 + 0) * 255) = inr 255%Z) by (vm_compute; reflexivity).
  split; [|split; [|by vm_compute]].
  - intros e He. unfold _get_taint, channel in *. cbn [FULL_TAINTED_COLOR].
    rewrite Red, He. reflexivity.
  - intros n Hn. split.
    + unfold _get_taint, channel in *. cbn [FULL_TAINTED_COLOR]. rewrite Red, Hn.
      reflexivity.
    + intros Hr. rewrite !string_length_app, (format_02x_byte n Hr). done.
Qed.

Lemma colour_ok_spec c :
  colour_ok c = true →
  ∃ n, (0 ≤ n ≤ 255)%Z ∧ channel c = inr n ∧
       _get_taint c = inr ("#ff" +:+ format_02x n +:+ format_02x n).
Proof.
  unfold colour_ok. destruct (channel c) as [e|n]; [done|].
  destruct (_get_taint c) as [e|s]; [done|].
  intros [[H1 H2]%andb_true_iff H3%bool_decide_eq_true]%andb_true_iff.
  exists n. split; [lia|]. split; [done|]. by rewrite H3.
Qed.

Lemma colours_ok_iter n c k :
  colours_ok n c = true → k < n →
  coefficient_ok (Nat.iter k (PrimFloat.mul PROPAGATION_COEFFICIENT) c) = true.
Proof.
  revert c k. induction n as [|n IH]; intros c k; simpl; [lia|].
  intros [H1 H2]%andb_true_iff Hk. destruct k as [|k]; [done|].
  rewrite Nat.iter_succ_r. apply IH; [done|lia].
Qed.

(** From 2090 steps on the coefficient is the smallest positive double,
    which [0.7 * _] rounds back to itself. *)
Lemma decay_stationary k : 2090 ≤ k → decay k = decay 2090.
Proof.
  induction 1 as [|k Hk IH]; [done|].
  change (decay (S k)) with (PROPAGATION_COEFFICIENT * decay k)%float. rewrite IH.
  vm_compute. reflexivity.
Qed.

Lemma all_decays_iter P n c k :
  all_decays P n c = true → k < n →
  P (Nat.iter k (PrimFloat.mul PROPAGATION_COEFFICIENT) c) = true.
Proof.
  revert c k. induction n as [|n IH]; intros c k; simpl; [lia|].
  intros [H1 H2]%andb_true_iff Hk. destruct k as [|k]; [done|].
  rewrite Nat.iter_succ_r. apply IH; [done|lia].
Qed.

(** Every coefficient with at least one factor [0.7] is below [1.0]. *)
Lemma decay_below_one k : PrimFloat.ltb (decay (S k)) 1 = true.
Proof.
  assert (Hall : all_decays (λ c, PrimFloat.ltb c 1) 2091 PROPAGATION_COEFFICIENT = true)
    by (vm_compute; reflexivity).
  assert (E : ∀ j, decay (S j) = Nat.iter j (PrimFloat.mul PROPAGATION_COEFFICIENT)
                                   PROPAGATION_COEFFICIENT).
  { intros j. unfold decay. rewrite Nat.iter_succ_r. f_equal. }
  destruct (decide (k < 2091)) as [Hk|Hk].
  - rewrite E. exact (all_decays_iter _ 2091 _ k Hall Hk).
  - rewrite decay_stationary by lia. rewrite <- (decay_stationary 2091) by lia.
    rewrite E. apply (all_decays_iter _ 2091 _ 2090 Hall). lia.
Qed.

Lemma decay_not_one k : decay (S k) ≠ 1%float.
Proof.
  intros E. pose proof (decay_below_one k) as L. rewrite E in L. vm_compute in L. done.
Qed.

Lemma decay_coefficient_ok k : coefficient_ok (decay k) = true.
Proof.
  assert (Hall : colours_ok 2091 1 = true) by (vm_compute; reflexivity).
  destruct (decide (k < 2091)) as [Hk|Hk].
  - unfold decay. exact (colours_ok_iter 2091 1 k Hall Hk).
  - rewrite decay_stationary by lia. unfold decay.
    apply (colours_ok_iter 2091 1 2090 Hall). lia.
Qed.

Lemma decay_colour_ok k : colour_ok (decay k) = true.
Proof.
  pose proof (decay_coefficient_ok k) as E. unfold coefficient_ok in E.
  by apply andb_true_iff in E as [[E _]%andb_true_iff _].
Qed.

(** The coefficient [0.7 ^ k] is never rounded down to zero. *)
Lemma decay_range k :
  PrimFloat.ltb 0 (decay k) = true ∧ PrimFloat.leb (decay k) 1 = true.
Proof.
  pose proof (decay_coefficient_ok k) as E. unfold coefficient_ok in E.
  by apply andb_true_iff in E as [[_ E1]%andb_true_iff E2].
Qed.

(** X10: every coefficient [0.7 * (0.7 * ... * 1)] the propagation can
    store is a double in (0, 1]: it is never rounded to zero, from 2090
    factors on it stays at one value, and [_get_taint] turns it into a
    well-formed 7-character colour without raising. *)
Theorem _get_taint_decay k :
  PrimFloat.ltb 0 (decay k) = true ∧
  PrimFloat.leb (decay k) 1 = true ∧
  (2090 ≤ k → decay k = decay 2090) ∧
  ∃ n, (0 ≤ n ≤ 255)%Z ∧
       _get_taint (decay k) = inr ("#ff" +:+ format_02x n +:+ format_02x n) ∧
       String.length ("#ff" +:+ format_02x n +:+ format_02x n) = 7.
Proof.
  destruct (decay_range k) as [P L]. split; [done|]. split; [done|].
  split; [apply decay_stationary|].
  destruct (colour_ok_spec _ (decay_colour_ok k)) as (n & Hn & _ & E).
  exists n. split; [done|]. split; [done|].
  rewrite !string_length_app, (format_02x_byte n Hn). done.
Qed.

(** * The coefficients [_taint_variable] writes *)

Section Decay.

Context {Function : Type} `{FunctionObj Function}.

Implicit Types (bs : list (@DFGVariableBlock Function)) (st : @TaintState Function).
Implicit Types (d : @DFG Function).

(** C1 (amended): on every graph whose [children_blocks] refer to blocks of
    the graph, [_taint_variable(source)] writes 1.0 to [source], visits blocks
    in first-in first-out order from [source] and ends.  A visit writes to
    each child 0.7 times the coefficient the visited block holds at that
    write: 0.7 times the coefficient it had when the visit began, with one
    more factor 0.7 for every time the visited block, being its own child,
    was written earlier in the same visit ([self_decays]); without such a
    self-loop every child receives exactly 0.7 times the coefficient of the
    visited block, and blocks that are not children keep theirs.  When the
    loop has ended, [source] holds 1.0 exactly when it is not a child of any
    block reachable from it; otherwise it holds [0.7 * (0.7 * ... * 1)] with
    at least one factor, which is below 1.0.  On a chain A → B → C whose only
    function argument is A, [_taint_functions_arguments] yields 1.0, 0.7 and
    0.7 * 0.7, which is 0.49 up to rounding. *)
Theorem _taint_variable_decay d :
  wf_blocks (variables_blocks d) →
  (∀ source, source < length (variables_blocks d) →
     coefficient (blocks (taint_start source (variables_blocks d))) source = Some 1%float ∧
     (∃ fuel final,
        _taint_variable_run fuel source (variables_blocks d) = Some final ∧
        taint_steps (taint_start source (variables_blocks d)) final ∧
        blocks_to_taint final = [] ∧
        ((∀ p, reachable (variables_blocks d) source p →
               source ∉ children_of (variables_blocks d) p) →
           coefficient (blocks final) source = Some 1%float) ∧
        (∀ p, reachable (variables_blocks d) source p →
              source ∈ children_of (variables_blocks d) p →
           ∃ k, coefficient (blocks final) source = Some (decay (S k)) ∧
                PrimFloat.ltb (decay (S k)) 1 = true ∧
                coefficient (blocks final) source ≠ Some 1%float)) ∧
     (∀ st head rest,
        taint_steps (taint_start source (variables_blocks d)) st →
        blocks_to_taint st = head :: rest →
        ∃ p st', blocks st !! head = Some p ∧ taint_step st = Some st' ∧
          tainted_blocks st' = tainted_blocks st ++ [head] ∧
          blocks_to_taint st' =
            rest ++ filter (λ c, c ∉ tainted_blocks st ++ [head]) (children_blocks p) ∧
          (∀ i, i ∉ children_blocks p → blocks st' !! i = blocks st !! i) ∧
          (∀ c, c ∈ children_blocks p →
             coefficient (blocks st') c
             = Some (PROPAGATION_COEFFICIENT *
                     Nat.iter (self_decays head c (children_blocks p))
                       (PrimFloat.mul PROPAGATION_COEFFICIENT)
                       (tainting_coefficient p))%float) ∧
          (head ∉ children_blocks p →
             ∀ c, c ∈ children_blocks p →
               coefficient (blocks st') c
               = Some (PROPAGATION_COEFFICIENT * tainting_coefficient p)%float))) ∧
  (∀ A B C,
     variables_blocks d = [A; B; C] →
     children_blocks A = [1] → children_blocks B = [2] → children_blocks C = [] →
     b_is_function_argument A = true →
     b_is_function_argument B = false →
     b_is_function_argument C = false →
     ∃ d', _taint_functions_arguments 3 d = Some d' ∧
       tainting_coefficient <$> variables_blocks d' =
         [1; PROPAGATION_COEFFICIENT; PROPAGATION_COEFFICIENT * PROPAGATION_COEFFICIENT]%float ∧
       PrimFloat.ltb
         (PrimFloat.abs (PROPAGATION_COEFFICIENT * PROPAGATION_COEFFICIENT - 0.49))
         1e-9 = true).
Proof.
  intros W. split.
  - intros source Hs. split; [|split].
    + unfold taint_start. cbn [blocks].
      rewrite (coefficient_alter 1 source source), decide_True by done.
      unfold coefficient. by destruct (lookup_lt_is_Some_2 _ _ Hs) as [b ->].
    + destruct (_taint_variable_run_invariant _ source W Hs) as (fuel & final & R & Q & I).
      pose proof (taint_loop_steps fuel _ _ R) as Rs.
      exists fuel, final. do 3 (split; [done|]). split.
      * intros Hno. destruct I as (_ & _ & _ & _ & _ & Hfr).
        unfold coefficient. rewrite (Hfr source Hno).
        fold (coefficient (blocks (taint_start source (variables_blocks d))) source).
        unfold taint_start. cbn [blocks].
        rewrite (coefficient_alter 1 source source), decide_True by done.
        unfold coefficient. by destruct (lookup_lt_is_Some_2 _ _ Hs) as [b ->].
      * intros p Hp Hc.
        pose proof (taint_invariant_closed _ source final p I Q Hp) as Hv.
        destruct (taint_steps_source_decayed _ source final W Hs Rs p Hv Hc) as [k Hk].
        exists k. split; [done|]. split; [apply decay_below_one|].
        rewrite Hk. intros [= E]. by apply (decay_not_one k).
    + intros st head rest R Q.
      pose proof (taint_steps_wf _ _ (taint_start_wf _ _ W Hs) R) as Wst.
      assert (Hh : head < length (blocks st)).
      { destruct Wst as [_ F]. rewrite Q in F. by apply Forall_cons in F as [? _]. }
      destruct (lookup_lt_is_Some_2 _ _ Hh) as [p Hp].
      destruct (taint_step_spec st head rest p Wst Q Hp) as (st' & S1 & Et & Eq & Hout & _).
      pose proof (taint_step_exact st head rest p st' Wst Q Hp S1) as Hex.
      exists p, st'. do 5 (split; [done|]). split; [done|].
      intros Hself c Hc. by rewrite (Hex c Hc), self_decays_no_self.
  - intros A B C Hd HA HB HC aA aB aC.
    destruct (chain_taint d A B C Hd HA HB HC aA aB aC) as (d' & R & E).
    exists d'. by repeat split.
Qed.

End Decay.

(** * Construction, tainting and colours together *)

Section Pipeline.

Context {Function : Type} `{FunctionObj Function}.

Implicit Types (d : @DFG Function) (vs : list (@Variable_ Function)).

Lemma _clean_tainting_untainted d :
  Forall (λ b, tainting_coefficient b = 0%float) (variables_blocks d) →
  _clean_tainting d = d.
Proof.
  intros F. destruct d as [vs0 bs0 cs0 fs0 es0 args0]. unfold _clean_tainting.
  unfold with_variables_blocks. simpl in *. f_equal.
  induction F as [|b bs0 E F IH]; csimpl; [done|]. rewrite IH. f_equal.
  destruct b. simpl in E. by rewrite E.
Qed.

(** X11: [_clean_tainting] followed by [_taint_functions_arguments] ends on
    a well-formed graph, and afterwards a block holds a positive coefficient
    of the form [0.7 * (0.7 * ... * 1)] if it can be reached from a block
    that is a function argument, and the coefficient [0] if it cannot. *)
Theorem _taint_functions_arguments_after_clean d :
  wf_blocks (variables_blocks d) →
  ∃ fuel d', _taint_functions_arguments fuel (_clean_tainting d) = Some d' ∧
    ∀ i b', variables_blocks d' !! i = Some b' →
      (argument_reachable (variables_blocks d) i →
         PrimFloat.ltb 0 (tainting_coefficient b') = true ∧
         ∃ k, tainting_coefficient b' = decay k) ∧
      (¬ argument_reachable (variables_blocks d) i → tainting_coefficient b' = 0%float).
Proof.
  intros W. destruct (_taint_functions_arguments_cases d W) as (fuel & d' & R & Hi).
  exists fuel, d'. split; [done|]. intros i b' Hb'.
  destruct (Hi i b' Hb') as [[Hr (k & Hk)]|[Hn E0]]; split; try done.
  intros _. split; [|by exists k]. rewrite Hk. apply decay_range.
Qed.

(** X12: on a graph built by [_create_dfg], [_taint_functions_arguments]
    ends; the blocks reachable from a function argument then hold a positive
    coefficient [0.7 * (0.7 * ... * 1)], the others hold [0], and
    [_get_taint] gives every block a well-formed colour. *)
Theorem _create_dfg_then_taint vs d :
  _create_dfg (__init__ vs) = Ok d →
  ∃ fuel d', _taint_functions_arguments fuel d = Some d' ∧
    ∀ i b', variables_blocks d' !! i = Some b' →
      (argument_reachable (variables_blocks d) i →
         PrimFloat.ltb 0 (tainting_coefficient b') = true ∧
         ∃ k, tainting_coefficient b' = decay k) ∧
      (¬ argument_reachable (variables_blocks d) i → tainting_coefficient b' = 0%float) ∧
      ∃ n, (0 ≤ n ≤ 255)%Z ∧
           _get_taint (tainting_coefficient b')
             = inr ("#ff" +:+ format_02x n +:+ format_02x n).
Proof.
  intros R. destruct (_create_dfg_built vs d R) as (I & _ & _).
  pose proof (edges_built_wf d vs I) as W.
  destruct (_taint_functions_arguments_cases d W) as (fuel & d' & T & Hi).
  rewrite (_clean_tainting_untainted d (_create_dfg_untainted vs d R)) in T.
  exists fuel, d'. split; [done|]. intros i b' Hb'.
  destruct (Hi i b' Hb') as [[Hr (k & Hk)]|[Hn E0]].
  - split; [intros _; split; [rewrite Hk; apply decay_range | by exists k]|].
    split; [done|]. rewrite Hk.
    destruct (colour_ok_spec _ (decay_colour_ok k)) as (n & Hbyte & _ & E). by exists n.
  - split; [done|]. split; [done|]. rewrite E0.
    exists 255%Z. split; [lia|]. vm_compute. reflexivity.
Qed.

End Pipeline.

(** * Instances of the theorems on the example graphs *)

(** C2: on the diamond A → B, A → C, B → D, C → D the loop of
    [_taint_variable] ends, but block D, reachable from A, is visited twice:
    it is queued by B and by C before it enters [tainted_blocks]. *)
Theorem diamond_block_visited_twice :
  wf_blocks diamond ∧
  tainted_blocks <$> _taint_variable_run 5 0 diamond = Some [0; 1; 2; 3; 3].
Proof.
  split; [|reflexivity]. repeat constructor; simpl; lia.
Qed.

Lemma chain_wf : wf_blocks chain.
Proof. repeat constructor; simpl; lia. Defined.

Lemma chain_source_on_no_cycle p : 0 ∉ children_of chain p.
Proof.
  destruct p as [|[|[|p]]]; by apply (bool_decide_unpack _).
Defined.

Lemma prog_self_dfg_built : _create_dfg (__init__ prog_self) = Ok prog_self_dfg.
Proof. vm_compute. reflexivity. Defined.

Lemma prog_self_dfg_wf : wf_blocks (variables_blocks prog_self_dfg).
Proof. repeat constructor; simpl; lia. Defined.

Lemma _taint_variable_decay_chain :
  wf_blocks (variables_blocks (graph_of chain)) ∧
  (∃ fuel final,
     _taint_variable_run fuel 0 chain = Some final ∧
     coefficient (blocks final) 0 = Some 1%float) ∧
  (∃ d', _taint_functions_arguments 3 (graph_of chain) = Some d' ∧
     tainting_coefficient <$> variables_blocks d' =
       [1; PROPAGATION_COEFFICIENT; PROPAGATION_COEFFICIENT * PROPAGATION_COEFFICIENT]%float ∧
     PrimFloat.ltb
       (PrimFloat.abs (PROPAGATION_COEFFICIENT * PROPAGATION_COEFFICIENT - 0.49))
       1e-9 = true) ∧
  wf_blocks (variables_blocks prog_self_dfg) ∧
  (∃ st', taint_step (taint_start 0 (variables_blocks prog_self_dfg)) = Some st' ∧
     coefficient (blocks st') 0 = Some (PROPAGATION_COEFFICIENT * 1)%float ∧
     coefficient (blocks st') 1
       = Some (PROPAGATION_COEFFICIENT * (PROPAGATION_COEFFICIENT * 1))%float) ∧
  (∃ fuel final k,
     _taint_variable_run fuel 0 (variables_blocks prog_self_dfg) = Some final ∧
     coefficient (blocks final) 0 = Some (decay (S k)) ∧
     PrimFloat.ltb (decay (S k)) 1 = true).
Proof.
  split; [exact chain_wf|].
  destruct (_taint_variable_decay (graph_of chain) chain_wf) as [Hrun Hchain].
  split; [|split].
  - assert (Hs : 0 < length (variables_blocks (graph_of chain))) by (simpl; lia).
    destruct (Hrun 0 Hs) as (_ & (fuel & final & R & _ & _ & Hkept & _) & _).
    exists fuel, final. split; [exact R|].
    apply Hkept. intros p _. apply chain_source_on_no_cycle.
  - exact (Hchain _ _ _ eq_refl eq_refl eq_refl eq_refl eq_refl eq_refl eq_refl).
  - split; [exact prog_self_dfg_wf|].
    destruct (_taint_variable_decay prog_self_dfg prog_self_dfg_wf) as [Hself _].
    assert (Hs : 0 < length (variables_blocks prog_self_dfg)) by (simpl; lia).
    destruct (Hself 0 Hs) as (_ & (fuel & final & R & _ & _ & _ & Hcycle) & Hvisit).
    assert (H0 : 0 ∈ [0; 1]) by (by apply (bool_decide_unpack _)).
    assert (H1 : 1 ∈ [0; 1]) by (by apply (bool_decide_unpack _)).
    split.
    + destruct (Hvisit _ 0 [] (rtc_refl _ _) eq_refl)
        as (p & st' & Hp & S1 & _ & _ & _ & Hex & _).
      injection Hp as <-. exists st'. split; [exact S1|].
      split; [exact (Hex 0 H0) | exact (Hex 1 H1)].
    + destruct (Hcycle 0 (rtc_refl _ _) H0) as (k & Hk & Hlt & _).
      by exists fuel, final, k.
Defined.

(** C1, counterexample: [_create_dfg] turns the scalar operand of the
    argument [x] of [prog_self] into an edge from the block of [x] to itself.
    On that graph [_taint_variable] returns with the source at 0.7, not at
    1.0, and the visit of the source, entered with coefficient 1.0, leaves its
    child [y] at 0.7 * 0.7, not at 0.7 * 1.0. *)
Lemma _taint_variable_self_loop :
  _create_dfg (__init__ prog_self) = Ok prog_self_dfg ∧
  wf_blocks (variables_blocks prog_self_dfg) ∧
  children_blocks <$> variables_blocks prog_self_dfg = [[0; 1]; []] ∧
  (∃ bs', _taint_variable 2 0 (variables_blocks prog_self_dfg) = Some bs' ∧
     tainting_coefficient <$> bs' =
       [PROPAGATION_COEFFICIENT; PROPAGATION_COEFFICIENT * PROPAGATION_COEFFICIENT]%float) ∧
  ¬ (∃ fuel bs', _taint_variable fuel 0 (variables_blocks prog_self_dfg) = Some bs' ∧
       coefficient bs' 0 = Some 1%float) ∧
  ¬ (∀ st', taint_step (taint_start 0 (variables_blocks prog_self_dfg)) = Some st' →
       ∀ c, c ∈ children_of (variables_blocks prog_self_dfg) 0 →
         coefficient (blocks st') c = Some (PROPAGATION_COEFFICIENT * 1)%float).
Proof.
  split; [exact prog_self_dfg_built|].
  split; [exact prog_self_dfg_wf|].
  split; [reflexivity|]. split; [eexists; split; reflexivity|]. split.
  - intros (fuel & bs' & R & E).
    assert (R2 : _taint_variable 2 0 (variables_blocks prog_self_dfg)
                 = Some (blocks (default (taint_start 0 (variables_blocks prog_self_dfg))
                           (_taint_variable_run 2 0 (variables_blocks prog_self_dfg)))))
      by reflexivity.
    pose proof (_taint_variable_fuel_mono fuel (fuel `max` 2) 0 _ _ (Nat.le_max_l _ _) R) as M1.
    pose proof (_taint_variable_fuel_mono 2 (fuel `max` 2) 0 _ _ (Nat.le_max_r _ _) R2) as M2.
    rewrite M1 in M2. injection M2 as ->.
    apply (f_equal (from_option (λ k, PrimFloat.ltb k 1) false)) in E.
    vm_compute in E. discriminate.
  - intros Hall.
    specialize (Hall _ eq_refl 1 ltac:(by apply (bool_decide_unpack _))).
    apply (f_equal (from_option (λ k, PrimFloat.ltb k 0.6) false)) in Hall.
    vm_compute in Hall. discriminate.
Qed.

Lemma example_operations_valid :
  Forall (valid_operation (length (variables_blocks (graph_of chain)))) example_operations.
Proof. repeat constructor; simpl; lia. Defined.

Lemma _clean_tainting_resets_chain :
  ∃ fuel d',
    run_operations fuel (graph_of chain) example_operations = Some d' ∧
    variables_blocks (_clean_tainting d') = set_coefficient 0 <$> variables_blocks d' ∧
    Forall (λ b, tainting_coefficient b = 0%float) (variables_blocks (_clean_tainting d')) ∧
    _clean_tainting d' = _clean_tainting (graph_of chain) ∧
    _clean_tainting (_clean_tainting d') = _clean_tainting d' ∧
    ∃ fuel' tainted,
      _taint_functions_arguments fuel' (_clean_tainting d') = Some tainted ∧
      _taint_functions_arguments fuel' (_clean_tainting (graph_of chain)) = Some tainted.
Proof.
  exact (_clean_tainting_resets (graph_of chain) example_operations
           chain_wf example_operations_valid).
Defined.

Lemma taint_operations_frame_chain :
  (∃ fuel d', run_operations fuel (graph_of chain) example_operations = Some d') ∧
  (∀ fuel d', run_operations fuel (graph_of chain) example_operations = Some d' →
     variables d' = variables (graph_of chain) ∧
     constants_blocks d' = constants_blocks (graph_of chain) ∧
     functions_calls_blocks d' = functions_calls_blocks (graph_of chain) ∧
     edges d' = edges (graph_of chain) ∧
     Forall2 same_but_coefficient (variables_blocks (graph_of chain)) (variables_blocks d')) ∧
  (∀ parent_block,
     Forall2 same_but_coefficient (variables_blocks (graph_of chain))
       (taint_children_blocks parent_block (variables_blocks (graph_of chain)))).
Proof.
  exact (taint_operations_frame (graph_of chain) example_operations
           chain_wf example_operations_valid).
Defined.

Lemma prog1_dfg_built : _create_dfg (__init__ prog1) = Ok prog1_dfg.
Proof. vm_compute. reflexivity. Defined.

Lemma prog1_readable : Forall constants_readable prog1.
Proof.
  repeat apply Forall_cons_2; try apply Forall_nil_2; unfold constants_readable; simpl;
    repeat constructor; discriminate.
Defined.

(** C3, counterexample: with [prog_import], the block of [y] in [f1] is
    displayed as [f1_y] although [y] is the argument of no non-import
    function. *)
Lemma _get_variable_name_import_argument :
  ¬ (_get_variable_name (__init__ prog_import) (new_variable_block "y" F1 false false)
       = prefixed_name (new_variable_block "y" F1 false false)
     ↔ b_name (new_variable_block "y" F1 false false) ∈ non_import_arguments prog_import).
Proof.
  intros [Himp _]. specialize (Himp eq_refl). vm_compute in Himp.
  apply list_elem_of_singleton in Himp. discriminate.
Qed.

Lemma _get_variable_name_prefix_prog_x :
  _get_variable_name (__init__ prog_x) (new_variable_block "x" F1 true false) = "f1_x" ∧
  _get_variable_name (__init__ prog_x) (new_variable_block "x" F2 true false) = "f2_x" ∧
  _get_variable_name (__init__ prog_x) (new_variable_block "t" F1 false false) = "t".
Proof.
  split; [|split].
  - etransitivity.
    + apply (proj2 (proj1 (proj2 (_get_variable_name_prefix prog_x
                                    (new_variable_block "x" F1 true false))))).
      vm_compute. repeat constructor.
    + reflexivity.
  - etransitivity.
    + apply (proj2 (proj1 (proj2 (_get_variable_name_prefix prog_x
                                    (new_variable_block "x" F2 true false))))).
      vm_compute. repeat constructor.
    + reflexivity.
  - apply (proj2 (proj2 (proj2 (_get_variable_name_prefix prog_x (new_variable_block "t" F1 false false))))).
    vm_compute. intros Hin. repeat (apply elem_of_cons in Hin as [Hin|Hin]; [discriminate|]).
    by apply elem_of_nil in Hin.
Defined.


Lemma _create_edges_constant_operands_prog1 :
  length (integer_typed_operands prog1) = 2 ∧
  c_value <$> constants_blocks prog1_dfg = [AInt 3; AInt 3] ∧
  c_id <$> constants_blocks prog1_dfg = [0; 1] ∧
  v_name ∘ c_variable <$> constants_blocks prog1_dfg = ["b"; "e"] ∧
  c_function <$> constants_blocks prog1_dfg = [Some F1; Some F1] ∧
  Forall2 (λ c vo, c_variable c = vo.1 ∧ c_function c = v_function vo.1 ∧
                   (op_value vo.2 = Scalar (c_value c) ∨
                    ∃ l, op_value vo.2 = ListOf (c_value c :: l)))
    (constants_blocks prog1_dfg) (integer_typed_operands prog1) ∧
  length (constants_blocks prog1_dfg) = length (integer_typed_operands prog1) ∧
  (∀ k c, constants_blocks prog1_dfg !! k = Some c → c_id c = k) ∧
  NoDup (c_id <$> constants_blocks prog1_dfg) ∧
  (∀ k c, constants_blocks prog1_dfg !! k = Some c →
     ∃ destination_block rest,
       positions (is_destination (c_variable c)) (variables_blocks prog1_dfg)
         = destination_block :: rest ∧
       {| e_source := ConstantRef k;
          e_destination := destination_block;
          e_function := v_function (c_variable c) |} ∈ edges prog1_dfg).
Proof.
  destruct (_create_edges_constant_operands prog1 prog1_dfg prog1_dfg_built)
    as (Hf & Hl & Hid & Hnd & Hed & _).
  do 5 (split; [reflexivity|]).
  exact (conj Hf (conj Hl (conj Hid (conj Hnd Hed)))).
Defined.

(** C7, counterexample: the blocks are built by [_create_blocks] from the
    very list [_create_edges] walks through, and yet the destination lookup
    fails: the variable [g] has a value and no function, so it has no block. *)
Lemma _create_edges_fails_after__create_blocks :
  _create_edges (_create_functions_calls (_create_blocks (__init__ prog_global)))
  = Raise IndexError.
Proof. reflexivity. Qed.

Lemma _create_edges_missing_destination_prog1 :
  Forall constants_readable prog1 ∧
  (_create_dfg (__init__ prog1) = Raise IndexError ↔
   ∃ v operation, v ∈ prog1 ∧ v_value v = Some (Expression operation) ∧ ¬ analysable v).
Proof.
  split; [exact prog1_readable|].
  exact (proj2 (proj2 (_create_edges_missing_destination prog1 prog1_readable))).
Defined.

Lemma _create_dfg_relations_prog1 :
  (∀ i b, variables_blocks prog1_dfg !! i = Some b →
     Forall (λ c, c < length (variables_blocks prog1_dfg)) (children_blocks b) ∧
     Forall (λ p, p < length (variables_blocks prog1_dfg)) (parents_blocks b) ∧
     children_blocks b = edge_children i (edges prog1_dfg) ∧
     parents_blocks b = edge_parents i (edges prog1_dfg)) ∧
  (∀ k c, constants_blocks prog1_dfg !! k = Some c →
     ∃ e, e ∈ edges prog1_dfg ∧ e_source e = ConstantRef k).
Proof.
  destruct (_create_dfg_relations prog1 prog1_dfg prog1_dfg_built) as (Hr & Hc & _).
  exact (conj Hr Hc).
Defined.

(** ** Instances of the further properties *)

Lemma diamond_wf : wf_blocks diamond.
Proof. repeat constructor; simpl; lia. Defined.

Lemma _taint_variable_visits_reachable_diamond :
  wf_blocks diamond ∧ 0 < length diamond ∧
  ∃ fuel st, _taint_variable_run fuel 0 diamond = Some st ∧
    ∀ i, i ∈ tainted_blocks st ↔ reachable diamond 0 i.
Proof.
  split; [exact diamond_wf|]. split; [simpl; lia|].
  apply (_taint_variable_visits_reachable diamond 0 diamond_wf). simpl; lia.
Defined.

Lemma _taint_variable_coefficients_diamond :
  wf_blocks diamond ∧ 1 < length diamond ∧
  ∃ fuel bs', _taint_variable fuel 1 diamond = Some bs' ∧
    ∀ i, (reachable diamond 1 i →
            ∃ k, coefficient bs' i = Some (decay k) ∧ (i ≠ 1 → 1 ≤ k)) ∧
         (¬ reachable diamond 1 i → bs' !! i = diamond !! i).
Proof.
  split; [exact diamond_wf|]. split; [simpl; lia|].
  apply (_taint_variable_coefficients diamond 1 diamond_wf). simpl; lia.
Defined.

Lemma _taint_variable_source_kept_chain :
  wf_blocks chain ∧ 0 < length chain ∧
  (∀ p, reachable chain 0 p → 0 ∉ children_of chain p) ∧
  ∃ fuel bs', _taint_variable fuel 0 chain = Some bs' ∧ coefficient bs' 0 = Some 1%float.
Proof.
  split; [exact chain_wf|]. split; [simpl; lia|].
  split; [intros p _; apply chain_source_on_no_cycle|].
  apply (_taint_variable_source_kept chain 0 chain_wf); [simpl; lia|].
  intros p _. apply chain_source_on_no_cycle.
Defined.

Lemma _taint_variable_visits_bound_diamond :
  wf_blocks diamond ∧ 0 < length diamond ∧
  ∃ fuel st, _taint_variable_run fuel 0 diamond = Some st ∧
    length (tainted_blocks st) ≤ visits_bound (max_children diamond) (length diamond) ∧
    (max_children diamond ≤ 1 → length (tainted_blocks st) ≤ S (length diamond)).
Proof.
  split; [exact diamond_wf|]. split; [simpl; lia|].
  apply (_taint_variable_visits_bound diamond 0 diamond_wf). simpl; lia.
Defined.

Lemma _create_dfg_keeps_blocks_prog1 :
  variables prog1_dfg = prog1 ∧
  all_functions_arguments prog1_dfg = all_functions_arguments (__init__ prog1) ∧
  Forall2 same_but_relations
    (variables_blocks (_create_blocks (__init__ prog1))) (variables_blocks prog1_dfg) ∧
  Forall2 (λ v b,
      b_name b = v_name v ∧
      v_function v = Some (b_function b) ∧
      b_is_function_argument b = v_is_function_argument v ∧
      b_is_function_return_value b = v_is_function_return_value v ∧
      graph_representation_name b = Some (_get_variable_name prog1_dfg b) ∧
      tainting_coefficient b = 0%float)
    (filter analysable prog1) (variables_blocks prog1_dfg).
Proof. exact (_create_dfg_keeps_blocks prog1 prog1_dfg prog1_dfg_built). Defined.

Lemma _create_dfg_edges_scoped_prog1 :
  Forall (λ e,
    ∃ bd, variables_blocks prog1_dfg !! e_destination e = Some bd ∧
          e_function e = Some (b_function bd) ∧
          f_is_import (b_function bd) = false ∧
          match e_source e with
          | VariableRef s =>
              ∃ bsrc, variables_blocks prog1_dfg !! s = Some bsrc ∧
                      b_function bsrc = b_function bd
          | ConstantRef k =>
              ∃ c, constants_blocks prog1_dfg !! k = Some c ∧
                   c_function c = Some (b_function bd)
          end) (edges prog1_dfg).
Proof. exact (_create_dfg_edges_scoped prog1 prog1_dfg prog1_dfg_built). Defined.

Lemma _taint_functions_arguments_after_clean_chain :
  wf_blocks (variables_blocks (graph_of chain)) ∧
  ∃ fuel d', _taint_functions_arguments fuel (_clean_tainting (graph_of chain)) = Some d' ∧
    ∀ i b', variables_blocks d' !! i = Some b' →
      (argument_reachable (variables_blocks (graph_of chain)) i →
         PrimFloat.ltb 0 (tainting_coefficient b') = true ∧
         ∃ k, tainting_coefficient b' = decay k) ∧
      (¬ argument_reachable (variables_blocks (graph_of chain)) i →
         tainting_coefficient b' = 0%float).
Proof.
  split; [exact chain_wf|].
  exact (_taint_functions_arguments_after_clean (graph_of chain) chain_wf).
Defined.

Lemma _create_dfg_then_taint_prog1 :
  ∃ fuel d', _taint_functions_arguments fuel prog1_dfg = Some d' ∧
    ∀ i b', variables_blocks d' !! i = Some b' →
      (argument_reachable (variables_blocks prog1_dfg) i →
         PrimFloat.ltb 0 (tainting_coefficient b') = true ∧
         ∃ k, tainting_coefficient b' = decay k) ∧
      (¬ argument_reachable (variables_blocks prog1_dfg) i →
         tainting_coefficient b' = 0%float) ∧
      ∃ n, (0 ≤ n ≤ 255)%Z ∧
           _get_taint (tainting_coefficient b')
             = inr ("#ff" +:+ format_02x n +:+ format_02x n).
Proof. exact (_create_dfg_then_taint prog1 prog1_dfg prog1_dfg_built). Defined.

Lemma _taint_variable_ignores_coefficients_diamond :
  wf_blocks diamond ∧ 0 < length diamond ∧
  same_structure diamond (alter (set_coefficient 0.5) 3 diamond) ∧
  (∀ fuel, is_Some (_taint_variable_run fuel 0 diamond)
           ↔ is_Some (_taint_variable_run fuel 0 (alter (set_coefficient 0.5) 3 diamond))) ∧
  ∃ fuel st st',
    _taint_variable_run fuel 0 diamond = Some st ∧
    _taint_variable_run fuel 0 (alter (set_coefficient 0.5) 3 diamond) = Some st' ∧
    tainted_blocks st = tainted_blocks st' ∧
    _taint_variable fuel 0 diamond = Some (blocks st) ∧
    _taint_variable fuel 0 (alter (set_coefficient 0.5) 3 diamond) = Some (blocks st') ∧
    ∀ i, reachable diamond 0 i → blocks st !! i = blocks st' !! i.
Proof.
  split; [exact diamond_wf|]. split; [simpl; lia|]. split; [reflexivity|].
  apply (_taint_variable_ignores_coefficients diamond _ 0 diamond_wf);
    [simpl; lia | reflexivity].
Defined.

Lemma _create_dfg_parents_mirror_children_prog1 :
  ∃ bp bc,
    variables_blocks prog1_dfg !! 0 = Some bp ∧ variables_blocks prog1_dfg !! 1 = Some bc ∧
    (1 ∈ children_blocks bp ↔ 0 ∈ parents_blocks bc) ∧
    (1 ∈ children_blocks bp ↔
       ∃ e, e ∈ edges prog1_dfg ∧ e_source e = VariableRef 0 ∧ e_destination e = 1) ∧
    length (filter (λ x, x = 1) (children_blocks bp))
    = length (filter (λ x, x = 0) (parents_blocks bc)).
Proof.
  eexists _, _. split; [reflexivity|]. split; [reflexivity|].
  apply (_create_dfg_parents_mirror_children prog1 prog1_dfg prog1_dfg_built 0 1);
    reflexivity.
Defined.
